(** * Playwright ZIP viewer: the WebGL decoration modules and the path
    resolver of the virtual-origin layer.

    - [DragOverlay] and [Border] embed the two source modules of the
      repository, the drag-over overlay and the animated border text.
      JavaScript numbers that take part in floating-point arithmetic are
      IEEE-754 binary64 values ([PrimFloat.float]); a counter that only
      ever moves in steps of one is an integer.
    - [Whole] holds what the loops of both modules need to know about
      whole numbers as binary64 values.
    - [Resolver] states the path resolver of the design document next to
      the URL parser of browsers (the URL Standard) and next to the
      reference resolution of RFC 3986, and proves where they agree.  The
      resolver's implementation is not part of the source tree; the
      definitions written from the design document say so. *)

From Stdlib Require Import Floats Ascii.
From Stdlib Require Uint63.
From stdpp Require Import base option list gmap strings fin_maps.

Open Scope Z_scope.

(** ** The drag-over overlay *)

Module DragOverlay.

Definition PAN_SCALE : float := 0.5%float.

(** The part of a drag event the handlers read. *)
Record MouseEv := { clientX : float; clientY : float }.

(** Module-level [let] bindings of the overlay, together with the two
    pieces of host state its handlers touch: the [active] class of the
    canvas and the animation-frame requests that are outstanding.
    [dragEnterCount] is only ever changed by [++], [--] and [= 0]. *)
Record State := {
  isVisible : bool;
  isDisabled : bool;
  dragEnterCount : Z;
  animationId : option N;
  lastTime : float;
  currentPanX : float;
  currentPanY : float;
  targetPanX : float;
  targetPanY : float;
  mouseX : float;
  mouseY : float;
  canvasActive : bool;
  rafCounter : N;
  rafPending : list N;
  innerWidth : float;
  innerHeight : float
}.

Definition init (w h : float) : State :=
  {| isVisible := false; isDisabled := false; dragEnterCount := 0;
     animationId := None; lastTime := 0%float;
     currentPanX := 0%float; currentPanY := 0%float;
     targetPanX := 0%float; targetPanY := 0%float;
     mouseX := 0%float; mouseY := 0%float;
     canvasActive := false; rafCounter := 0%N; rafPending := [];
     innerWidth := w; innerHeight := h |}.

(** [getPanFromCursor] *)
Definition getPanFromCursor (s : State) : float * float :=
  let centerX := (innerWidth s / 2)%float in
  let centerY := (innerHeight s / 2)%float in
  (((mouseX s - centerX) * PAN_SCALE)%float,
   ((mouseY s - centerY) * PAN_SCALE)%float).

(** [requestAnimationFrame(render)]: the host hands out the next
    identifier, which is never zero. *)
Definition requestAnimationFrame (s : State) : N * State :=
  let id := (rafCounter s + 1)%N in
  (id, {| isVisible := isVisible s; isDisabled := isDisabled s;
          dragEnterCount := dragEnterCount s; animationId := animationId s;
          lastTime := lastTime s;
          currentPanX := currentPanX s; currentPanY := currentPanY s;
          targetPanX := targetPanX s; targetPanY := targetPanY s;
          mouseX := mouseX s; mouseY := mouseY s;
          canvasActive := canvasActive s;
          rafCounter := id; rafPending := id :: rafPending s;
          innerWidth := innerWidth s; innerHeight := innerHeight s |}).

(** [show] *)
Definition show (s : State) : State :=
  if isVisible s then s
  else
    let '(px, py) := getPanFromCursor s in
    let '(id, s1) := requestAnimationFrame s in
    {| isVisible := true; isDisabled := isDisabled s1;
       dragEnterCount := dragEnterCount s1; animationId := Some id;
       lastTime := 0%float;
       currentPanX := px; currentPanY := py;
       targetPanX := px; targetPanY := py;
       mouseX := mouseX s1; mouseY := mouseY s1;
       canvasActive := true;
       rafCounter := rafCounter s1; rafPending := rafPending s1;
       innerWidth := innerWidth s1; innerHeight := innerHeight s1 |}.

(** [if (animationId)]: a request identifier is truthy unless it is 0. *)
Definition truthy_id (a : option N) : bool :=
  match a with
  | Some n => negb (n =? 0)%N
  | None => false
  end.

(** [hide] *)
Definition hide (s : State) : State :=
  let cancel := truthy_id (animationId s) in
  {| isVisible := false; isDisabled := isDisabled s;
     dragEnterCount := dragEnterCount s;
     animationId := if cancel then None else animationId s;
     lastTime := lastTime s;
     currentPanX := currentPanX s; currentPanY := currentPanY s;
     targetPanX := targetPanX s; targetPanY := targetPanY s;
     mouseX := mouseX s; mouseY := mouseY s;
     canvasActive := false;
     rafCounter := rafCounter s;
     rafPending :=
       (if cancel
        then filter (λ i, Some i ≠ animationId s) (rafPending s)
        else rafPending s);
     innerWidth := innerWidth s; innerHeight := innerHeight s |}.

Definition set_count (n : Z) (s : State) : State :=
  {| isVisible := isVisible s; isDisabled := isDisabled s;
     dragEnterCount := n; animationId := animationId s;
     lastTime := lastTime s;
     currentPanX := currentPanX s; currentPanY := currentPanY s;
     targetPanX := targetPanX s; targetPanY := targetPanY s;
     mouseX := mouseX s; mouseY := mouseY s;
     canvasActive := canvasActive s;
     rafCounter := rafCounter s; rafPending := rafPending s;
     innerWidth := innerWidth s; innerHeight := innerHeight s |}.

Definition set_mouse (e : MouseEv) (s : State) : State :=
  {| isVisible := isVisible s; isDisabled := isDisabled s;
     dragEnterCount := dragEnterCount s; animationId := animationId s;
     lastTime := lastTime s;
     currentPanX := currentPanX s; currentPanY := currentPanY s;
     targetPanX := targetPanX s; targetPanY := targetPanY s;
     mouseX := clientX e; mouseY := clientY e;
     canvasActive := canvasActive s;
     rafCounter := rafCounter s; rafPending := rafPending s;
     innerWidth := innerWidth s; innerHeight := innerHeight s |}.

Definition set_target (p : float * float) (s : State) : State :=
  {| isVisible := isVisible s; isDisabled := isDisabled s;
     dragEnterCount := dragEnterCount s; animationId := animationId s;
     lastTime := lastTime s;
     currentPanX := currentPanX s; currentPanY := currentPanY s;
     targetPanX := fst p; targetPanY := snd p;
     mouseX := mouseX s; mouseY := mouseY s;
     canvasActive := canvasActive s;
     rafCounter := rafCounter s; rafPending := rafPending s;
     innerWidth := innerWidth s; innerHeight := innerHeight s |}.

Definition set_disabled (b : bool) (s : State) : State :=
  {| isVisible := isVisible s; isDisabled := b;
     dragEnterCount := dragEnterCount s; animationId := animationId s;
     lastTime := lastTime s;
     currentPanX := currentPanX s; currentPanY := currentPanY s;
     targetPanX := targetPanX s; targetPanY := targetPanY s;
     mouseX := mouseX s; mouseY := mouseY s;
     canvasActive := canvasActive s;
     rafCounter := rafCounter s; rafPending := rafPending s;
     innerWidth := innerWidth s; innerHeight := innerHeight s |}.

(** [handleDragEnter] *)
Definition handleDragEnter (e : MouseEv) (s : State) : State :=
  if isDisabled s then s
  else
    let s1 := set_count (dragEnterCount s + 1) s in
    if dragEnterCount s1 =? 1 then show (set_mouse e s1) else s1.

(** [handleDragLeave] *)
Definition handleDragLeave (s : State) : State :=
  let s1 := set_count (dragEnterCount s - 1) s in
  if dragEnterCount s1 =? 0 then hide s1 else s1.

(** [handleDragOver] *)
Definition handleDragOver (e : MouseEv) (s : State) : State :=
  let s1 := set_mouse e s in
  set_target (getPanFromCursor s1) s1.

(** [handleDrop] *)
Definition handleDrop (s : State) : State :=
  hide (set_count 0 s).

(** [disable] and [enable] *)
Definition disable (s : State) : State :=
  if isDisabled s then s else hide (set_disabled true s).

Definition enable (s : State) : State :=
  if negb (isDisabled s) then s else set_disabled false s.

(** The mutation-observer callback; [reportActive] says whether a
    [.report-frame] element carrying the [active] class exists. *)
Definition observe (reportActive : bool) (s : State) : State :=
  if reportActive then disable s
  else if isDisabled s then enable s else s.

Inductive Event :=
| DragEnter (e : MouseEv)
| DragLeave
| DragOver (e : MouseEv)
| Drop
| Observed (reportActive : bool).

Definition step (s : State) (ev : Event) : State :=
  match ev with
  | DragEnter e => handleDragEnter e s
  | DragLeave => handleDragLeave s
  | DragOver e => handleDragOver e s
  | Drop => handleDrop s
  | Observed b => observe b s
  end.

Definition run (evs : list Event) (s : State) : State :=
  fold_left step evs s.

(** The three handlers of the visibility protocol. *)
Definition is_drag_handler (ev : Event) : bool :=
  match ev with
  | DragEnter _ | DragLeave | Drop => true
  | _ => false
  end.

(** Every [DragLeave] answers a [DragEnter] that is still open since the
    last [Drop]; [depth] counts the open ones. *)
Fixpoint matched (depth : nat) (evs : list Event) : bool :=
  match evs with
  | [] => true
  | DragEnter _ :: r => matched (S depth) r
  | DragLeave :: r =>
      match depth with
      | O => false
      | S d => matched d r
      end
  | Drop :: r => matched 0 r
  | _ :: r => matched depth r
  end.

(** What the handlers keep true as long as nothing disables the overlay. *)
Definition visible_iff_counted (s : State) : Prop :=
  isDisabled s = false ∧ isVisible s = bool_decide (1 ≤ dragEnterCount s).

Lemma show_visible s : isVisible (show s) = true.
Proof. unfold show. destruct (isVisible s) eqn:E; [done|]. by destruct (getPanFromCursor s). Qed.

Lemma show_frame s :
  isDisabled (show s) = isDisabled s ∧ dragEnterCount (show s) = dragEnterCount s.
Proof. unfold show. destruct (isVisible s); [done|]. by destruct (getPanFromCursor s). Qed.

Lemma step_preserves s ev :
  is_drag_handler ev = true → visible_iff_counted s → visible_iff_counted (step s ev).
Proof.
  intros Hev [Hd Hv]. destruct ev as [e| |e| |b]; try done; simpl.
  - unfold handleDragEnter. rewrite Hd. simpl.
    destruct (Z.eqb_spec (dragEnterCount s + 1) 1) as [E|E].
    + destruct (show_frame (set_mouse e (set_count (dragEnterCount s + 1) s))) as [F1 F2].
      split; [by rewrite F1|]. rewrite show_visible, F2. simpl.
      symmetry. apply bool_decide_eq_true. lia.
    + split; [done|]. simpl. rewrite Hv.
      apply bool_decide_ext. lia.
  - unfold handleDragLeave. simpl.
    destruct (Z.eqb_spec (dragEnterCount s - 1) 0) as [E|E].
    + split; [done|]. simpl. symmetry. apply bool_decide_eq_false. lia.
    + split; [done|]. simpl. rewrite Hv. apply bool_decide_ext. lia.
Qed.

Lemma run_preserves evs s :
  forallb is_drag_handler evs = true →
  visible_iff_counted s → visible_iff_counted (run evs s).
Proof.
  revert s. induction evs as [|ev evs IH]; intros s Hall Hs; [done|].
  simpl in Hall. apply andb_prop in Hall as [H1 H2].
  simpl. apply IH; [done|]. by apply step_preserves.
Qed.

Lemma run_matched evs : ∀ s d,
  forallb is_drag_handler evs = true →
  isDisabled s = false → dragEnterCount s = Z.of_nat d →
  matched d evs = true → 0 ≤ dragEnterCount (run evs s).
Proof.
  induction evs as [|ev evs IH]; intros s d Hall Hd Hc Hm.
  - simpl. lia.
  - simpl in Hall. apply andb_prop in Hall as [H1 H2].
    destruct ev as [e| |e| |b]; try done; simpl in *.
    + apply (IH _ (S d)); try done.
      * unfold handleDragEnter. rewrite Hd. simpl.
        destruct (_ =? 1); [|done].
        by destruct (show_frame (set_mouse e (set_count (dragEnterCount s + 1) s))) as [-> _].
      * unfold handleDragEnter. rewrite Hd. simpl.
        destruct (_ =? 1); [|simpl; lia].
        destruct (show_frame (set_mouse e (set_count (dragEnterCount s + 1) s))) as [_ ->].
        simpl. lia.
    + destruct d as [|d]; [done|]. apply (IH _ d); try done.
      * unfold handleDragLeave. simpl. by destruct (_ =? 0).
      * unfold handleDragLeave. simpl. destruct (_ =? 0); simpl; lia.
    + apply (IH _ O); done.
Qed.

(** With nothing disabling the overlay, visibility tracks the counter from
    any state that already does. *)
Lemma run_visible_iff evs s :
  forallb is_drag_handler evs = true →
  visible_iff_counted s →
  (isVisible (run evs s) = true ↔
   1 ≤ dragEnterCount (run evs s) ∧ isDisabled (run evs s) = false).
Proof.
  intros Hall Hs. destruct (run_preserves evs s Hall Hs) as [Hd Hv].
  rewrite Hv, bool_decide_eq_true. split; [by intros ?|by intros [? _]].
Qed.

(** C9 (as amended).  From the initial state, after any sequence of
    [handleDragEnter], [handleDragLeave] and [handleDrop] invocations the
    overlay is visible exactly when [dragEnterCount >= 1] and the overlay is
    not disabled; and [dragEnterCount] is not negative provided every
    [handleDragLeave] answers a [handleDragEnter] that is still open since
    the last [handleDrop]. *)
Theorem overlay_visibility_invariant (w h : float) (evs : list Event) :
  forallb is_drag_handler evs = true →
  (isVisible (run evs (init w h)) = true ↔
   1 ≤ dragEnterCount (run evs (init w h)) ∧
   isDisabled (run evs (init w h)) = false) ∧
  (matched 0 evs = true → 0 ≤ dragEnterCount (run evs (init w h))).
Proof.
  intros Hall. split.
  - apply run_visible_iff; [done|]. by split.
  - intros Hm. by apply (run_matched evs (init w h) O).
Qed.

Definition sample_drag : list Event :=
  [ DragEnter {| clientX := 100; clientY := 40 |};
    DragEnter {| clientX := 120; clientY := 44 |};
    DragLeave;
    Drop;
    DragEnter {| clientX := 300; clientY := 200 |} ].

(** The invariant at a concrete drag: enter twice, leave once, drop, enter
    again, in a 1280 by 720 window. *)
Lemma overlay_visibility_invariant_witness :
  forallb is_drag_handler sample_drag = true ∧
  matched 0 sample_drag = true ∧
  ((isVisible (run sample_drag (init 1280 720)) = true ↔
    1 ≤ dragEnterCount (run sample_drag (init 1280 720)) ∧
    isDisabled (run sample_drag (init 1280 720)) = false) ∧
   (matched 0 sample_drag = true →
    0 ≤ dragEnterCount (run sample_drag (init 1280 720)))).
Proof.
  split; [reflexivity|]. split; [reflexivity|].
  apply (overlay_visibility_invariant 1280 720 sample_drag). reflexivity.
Defined.

(** Why the three handlers only: the observer can leave the overlay hidden
    with the counter at 1, once it has disabled and re-enabled it. *)
Example overlay_hidden_after_enable :
  let s := run [ DragEnter {| clientX := 10; clientY := 10 |};
                 Observed true; Observed false ] (init 1280 720) in
  dragEnterCount s = 1 ∧ isDisabled s = false ∧ isVisible s = false.
Proof. done. Qed.

(** C9 as first stated fails: a single [handleDragLeave] from the initial
    state leaves [dragEnterCount] at -1. *)
Lemma overlay_count_negative_after_leave :
  forallb is_drag_handler [DragLeave] = true ∧
  dragEnterCount (run [DragLeave] (init 1280 720)) = -1 ∧
  ¬ (0 ≤ dragEnterCount (run [DragLeave] (init 1280 720))).
Proof. split; [reflexivity|]. split; [reflexivity|]. simpl. lia. Qed.

End DragOverlay.

(** ** Whole numbers in binary64

    Loop counters and array lengths are JavaScript numbers, that is
    binary64 values.  Up to 2^53 the whole numbers are binary64 values,
    adding one to them is exact, and they compare the way integers do; at
    2^53 adding one changes nothing any more.  This is read off the
    specification of binary64 arithmetic ([SpecFloat]) that the primitive
    operations are stated to follow. *)

Module Whole.

(** [p] shifted left by [n] binary places, for [n] not negative. *)
Definition shifted (p : positive) (n : Z) : positive :=
  match n with
  | Z.pos k => Pos.iter xO p k
  | _ => p
  end.

Definition digits (p : positive) : Z := Z.pos (digits2_pos p).

(** The binary64 number that is the whole number [p], for [p] below
    2^53: the mantissa holds 53 binary digits. *)
Definition whole_pos (p : positive) : spec_float :=
  S754_finite false (shifted p (53 - digits p)) (digits p - 53).

Definition whole (z : Z) : spec_float :=
  match z with
  | Z.pos p => whole_pos p
  | _ => S754_zero false
  end.

Lemma iter_xO p k : Z.pos (Pos.iter xO p k) = Z.pos p * 2 ^ Z.pos k.
Proof.
  change (Pos.iter xO p k) with (shift_pos k p).
  rewrite shift_pos_correct, Z.pow_pos_fold. lia.
Qed.

Lemma shifted_spec p n : 0 ≤ n → Z.pos (shifted p n) = Z.pos p * 2 ^ n.
Proof.
  intros Hn. destruct n as [|k|k]; simpl shifted; [lia| |lia].
  apply iter_xO.
Qed.

Lemma digits_bounds p : 2 ^ (digits p - 1) ≤ Z.pos p < 2 ^ digits p.
Proof.
  unfold digits. induction p as [p IH|p IH|]; simpl digits2_pos.
  - rewrite Pos2Z.inj_succ.
    replace (Z.succ (Z.pos (digits2_pos p)) - 1) with (Z.succ (Z.pos (digits2_pos p) - 1)) by lia.
    rewrite !Z.pow_succ_r by lia. lia.
  - rewrite Pos2Z.inj_succ.
    replace (Z.succ (Z.pos (digits2_pos p)) - 1) with (Z.succ (Z.pos (digits2_pos p) - 1)) by lia.
    rewrite !Z.pow_succ_r by lia. lia.
  - simpl. lia.
Qed.

Lemma digits_pos p : 1 ≤ digits p.
Proof. unfold digits. lia. Qed.

(** The number of digits is fixed by the power of two below the number. *)
Lemma digits_unique p d : 2 ^ (d - 1) ≤ Z.pos p < 2 ^ d → digits p = d.
Proof.
  intros [Hlo Hhi]. pose proof (digits_bounds p) as [Hlo' Hhi'].
  pose proof (digits_pos p).
  assert (0 < d).
  { destruct (Z_lt_le_dec 0 d); [done|]. 
    assert (2 ^ d ≤ 2 ^ 0) by (apply Z.pow_le_mono_r; lia). simpl in *. lia. }
  destruct (Z_lt_le_dec (digits p) d).
  - assert (2 ^ digits p ≤ 2 ^ (d - 1)) by (apply Z.pow_le_mono_r; lia). lia.
  - destruct (Z_lt_le_dec d (digits p)); [|lia].
    assert (2 ^ d ≤ 2 ^ (digits p - 1)) by (apply Z.pow_le_mono_r; lia). lia.
Qed.

Lemma digits_mul p q n : 0 ≤ n → Z.pos q = Z.pos p * 2 ^ n → digits q = digits p + n.
Proof.
  intros Hn E. apply digits_unique. rewrite E.
  pose proof (digits_bounds p) as [Hlo Hhi]. pose proof (digits_pos p).
  replace (digits p + n - 1) with (digits p - 1 + n) by lia.
  rewrite !Z.pow_add_r by lia.
  assert (0 < 2 ^ n) by (apply Z.pow_pos_nonneg; lia). nia.
Qed.

Lemma digits_mono p q : Z.pos p ≤ Z.pos q → digits p ≤ digits q.
Proof.
  intros Hle. pose proof (digits_bounds p) as [Hlo _].
  pose proof (digits_bounds q) as [_ Hhi]. pose proof (digits_pos q).
  destruct (Z_lt_le_dec (digits q) (digits p)); [|done].
  assert (2 ^ digits q ≤ 2 ^ (digits p - 1)) by (apply Z.pow_le_mono_r; lia). lia.
Qed.

Lemma iter_pos_iter {A} (f : A → A) n : ∀ x, @SpecFloat.iter_pos A f n x = Pos.iter f x n.
Proof.
  induction n as [n IH|n IH|]; intros x; simpl.
  - rewrite !IH. by rewrite <- !Pos.iter_swap.
  - by rewrite !IH.
  - done.
Qed.

(** Shifting right the places that were shifted in loses nothing. *)
Lemma shr_exact m k :
  SpecFloat.iter_pos shr_1 k {| shr_m := Z.pos (Pos.iter xO m k); shr_r := false; shr_s := false |}
  = {| shr_m := Z.pos m; shr_r := false; shr_s := false |}.
Proof.
  rewrite iter_pos_iter. revert m. induction k as [|k IH] using Pos.peano_ind; intros m.
  - done.
  - rewrite Pos.iter_succ_r, Pos.iter_succ. simpl shr_1. apply IH.
Qed.

Lemma fexp64 x : fexp prec emax x = Z.max (x - 53) (-1074).
Proof. reflexivity. Qed.

(** A mantissa of 53 digits with an exponent in range is left as it is. *)
Lemma binary_round_aux_canonical s m e :
  digits m = 53 → -1074 ≤ e ≤ 971 →
  binary_round_aux prec emax s (Z.pos m) e loc_Exact = S754_finite s m e.
Proof.
  intros Hd He. unfold binary_round_aux, shr_fexp. cbn [Zdigits2 shr_record_of_loc].
  fold (digits m). rewrite Hd, fexp64.
  replace (Z.max (53 + e - 53) (-1074) - e) with 0 by lia.
  cbn [shr shr_m loc_of_shr_record round_nearest_even Zdigits2].
  fold (digits m). rewrite Hd, fexp64.
  replace (Z.max (53 + e - 53) (-1074) - e) with 0 by lia.
  cbn [shr shr_m]. 
  replace (e <=? emax - prec)%Z with true; [done|].
  symmetry. apply Z.leb_le. change (emax - prec) with 971. lia.
Qed.

(** Rounding the whole number [q], given as [M * 2^(-n)], gives its
    53-digit form. *)
Lemma binary_round_whole q M n :
  0 ≤ n ≤ 1000 → Z.pos M = Z.pos q * 2 ^ n → digits q ≤ 53 →
  binary_round prec emax false M (- n) = whole_pos q.
Proof.
  intros Hn EM Hq. pose proof (digits_pos q) as Hq1.
  pose proof (digits_mul q M n ltac:(lia) EM) as HdM.
  unfold binary_round. fold (digits M). rewrite HdM, fexp64.
  replace (Z.max (digits q + n + - n - 53) (-1074)) with (digits q - 53) by lia.
  unfold shl_align, whole_pos.
  destruct (digits q - 53 - - n) as [|k|k] eqn:Ek.
  - (* the mantissa has 53 digits already *)
    assert (shifted q (53 - digits q) = M) as ->.
    { apply Pos2Z.inj. rewrite shifted_spec by lia. rewrite EM. f_equal. f_equal. lia. }
    replace (digits q - 53) with (- n) by lia.
    apply binary_round_aux_canonical; lia.
  - (* more than 53 digits: the low places, all zero, are shifted out *)
    set (m := shifted q (53 - digits q)).
    assert (M = Pos.iter xO m k) as ->.
    { apply Pos2Z.inj. rewrite iter_xO. unfold m. rewrite shifted_spec by lia.
      rewrite EM, <- Z.mul_assoc, <- Z.pow_add_r by lia. f_equal. f_equal. lia. }
    assert (digits m = 53) as Hm.
    { unfold m. rewrite (digits_mul q _ (53 - digits q)); [lia|lia|].
      apply shifted_spec. lia. }
    unfold binary_round_aux, shr_fexp. cbn [Zdigits2 shr_record_of_loc].
    fold (digits (Pos.iter xO m k)).
    rewrite (digits_mul m _ (Z.pos k)) by (try apply iter_xO; lia).
    rewrite Hm, fexp64.
    replace (Z.max (53 + Z.pos k + - n - 53) (-1074) - - n) with (Z.pos k) by lia.
    cbn [shr]. rewrite shr_exact.
    cbn [shr_m loc_of_shr_record round_nearest_even Zdigits2].
    fold (digits m). rewrite Hm, fexp64.
    replace (Z.max (53 + (- n + Z.pos k) - 53) (-1074) - (- n + Z.pos k)) with 0 by lia.
    cbn [shr shr_m].
    replace (- n + Z.pos k) with (digits q - 53) by lia.
    replace (digits q - 53 <=? emax - prec)%Z with true; [done|].
    symmetry. apply Z.leb_le. change (emax - prec) with 971. lia.
  - (* fewer than 53 digits: the mantissa is shifted left *)
    assert (Pos.iter xO M k = shifted q (53 - digits q)) as ->.
    { apply Pos2Z.inj. rewrite iter_xO, shifted_spec by lia.
      rewrite EM, <- Z.mul_assoc, <- Z.pow_add_r by lia. f_equal. f_equal. lia. }
    apply binary_round_aux_canonical; [|lia].
    rewrite (digits_mul q _ (53 - digits q)); [lia|lia|].
    apply shifted_spec. lia.
Qed.


Lemma whole_bounded z : 0 ≤ z < 2 ^ 53 ↔ z = 0 ∨ ∃ p, z = Z.pos p ∧ digits p ≤ 53.
Proof.
  split.
  - intros [Hlo Hhi]. destruct z as [|p|p]; [by left| |lia]. right.
    exists p. split; [done|]. pose proof (digits_bounds p) as [Hp _].
    destruct (Z_lt_le_dec 53 (digits p)); [|done].
    assert (2 ^ 53 ≤ 2 ^ (digits p - 1)) by (apply Z.pow_le_mono_r; lia). lia.
  - intros [->|(p & -> & Hp)]; [lia|]. pose proof (digits_bounds p) as [_ Hhi].
    assert (2 ^ digits p ≤ 2 ^ 53) by (apply Z.pow_le_mono_r; lia). lia.
Qed.


(** Whole numbers below 2^53 compare as binary64 numbers the way they
    compare as integers. *)
Lemma whole_ltb a b :
  0 ≤ a < 2 ^ 53 → 0 ≤ b < 2 ^ 53 → SFltb (whole a) (whole b) = (a <? b)%Z.
Proof.
  intros Ha Hb.
  destruct (proj1 (whole_bounded a) Ha) as [->|(p & -> & Hp)];
    destruct (proj1 (whole_bounded b) Hb) as [->|(q & -> & Hq)]; try reflexivity.
  cbn [whole]. unfold whole_pos, SFltb, SFcompare.
  pose proof (digits_pos p). pose proof (digits_pos q).
  pose proof (shifted_spec p (53 - digits p) ltac:(lia)) as Ep.
  pose proof (shifted_spec q (53 - digits q) ltac:(lia)) as Eq'.
  pose proof (digits_bounds p) as [Hplo Hphi].
  pose proof (digits_bounds q) as [Hqlo Hqhi].
  destruct (Z.compare_spec (digits p - 53) (digits q - 53)) as [E|E|E].
  - assert (digits q = digits p) as Ed by lia. rewrite Ed in *.
    assert (0 < 2 ^ (53 - digits p)) by (apply Z.pow_pos_nonneg; lia).
    change (PosDef.Pos.compare_cont Datatypes.Eq ?a ?b) with (Pos.compare a b).
    destruct (Pos.compare_spec (shifted p (53 - digits p)) (shifted q (53 - digits p)))
      as [E'|E'|E']; symmetry.
    + apply Z.ltb_ge.
      assert (Z.pos p * 2 ^ (53 - digits p) = Z.pos q * 2 ^ (53 - digits p))
        by congruence.
      nia.
    + apply Z.ltb_lt. apply Pos2Z.pos_lt_pos in E'. nia.
    + apply Z.ltb_ge. apply Pos2Z.pos_lt_pos in E'. nia.
  - symmetry. apply Z.ltb_lt.
    assert (2 ^ digits p ≤ 2 ^ (digits q - 1)) by (apply Z.pow_le_mono_r; lia). lia.
  - symmetry. apply Z.ltb_ge.
    assert (2 ^ digits q ≤ 2 ^ (digits p - 1)) by (apply Z.pow_le_mono_r; lia). lia.
Qed.

(** The binary64 number [x] is the whole number [z]. *)
Definition is_whole (x : float) (z : Z) : Prop :=
  0 ≤ z < 2 ^ 53 ∧ Prim2SF x = whole z.



Lemma is_whole_ltb x y a b :
  is_whole x a → is_whole y b → (x <? y)%float = (a <? b)%Z.
Proof. intros [Ha Ex] [Hb Ey]. rewrite ltb_spec, Ex, Ey. by apply whole_ltb. Qed.


(** [Number(z)] for an integer held in 63 bits. *)
Lemma is_whole_of_uint63 z :
  0 ≤ z < 2 ^ 53 → is_whole (PrimFloat.of_uint63 (Uint63.of_Z z)) z.
Proof.
  intros Hz. split; [done|]. rewrite of_uint63_spec.
  change Uint63Axioms.to_Z with Uint63.to_Z.
  rewrite Uint63.of_Z_spec, Z.mod_small.
  2:{ change Uint63.wB with (2 ^ 63). assert (2 ^ 53 < 2 ^ 63) by done. lia. }
  destruct (proj1 (whole_bounded z) Hz) as [->|(p & -> & Hp)]; [reflexivity|].
  cbn [binary_normalize whole].
  apply (binary_round_whole p p 0); [lia|lia|done].
Qed.






End Whole.

(** ** The animated border text (border.js) *)

Module Border.

Local Open Scope float_scope.

Definition TEXT : list ascii := String.list_ascii_of_string "DRAG ZIP FILE HERE ".
Definition BORDER_SIZE : float := 30.
Definition CORNER_RADIUS : float := 8.
Definition FONT_SIZE : float := 14.
Definition LETTER_SPACING : float := -1.
Definition ANIMATION_SPEED : float := 80.
(** [Math.PI], the binary64 value nearest to pi. *)
Definition Math_PI : float := 0x1.921fb54442d18p+1.

(** The built-ins of the host that [border.js] calls and that binary64
    arithmetic alone does not give: [Math.floor], [Math.cos], [Math.sin] and
    the remainder operator [%].  Everything below is stated for an arbitrary
    host. *)
Record Host := {
  Math_floor : float → float;
  Math_cos : float → float;
  Math_sin : float → float;
  rem : float → float → float
}.

(** An entry of [charData]. *)
Record CharData := {
  cd_x : float;
  cd_width : float;
  u0 : float;
  u1 : float;
  v0 : float;
  v1 : float
}.

(** An entry of [pathSegments]. *)
Inductive Segment :=
| Line (x1 y1 x2 y2 length angle : float)
| Arc (cx cy radius startAngle endAngle length : float).

Definition seg_length (seg : Segment) : float :=
  match seg with
  | Line _ _ _ _ l _ => l
  | Arc _ _ _ _ _ l => l
  end.

(** The module-level bindings [buildGeometry] reads. *)
Record State := {
  charData : gmap ascii CharData;
  pathSegments : list Segment;
  totalPathLength : float;
  dpr : float
}.

Record Point := { pt_x : float; pt_y : float; pt_angle : float }.

Record Geometry := { positions : list float; texCoords : list float }.

(** JavaScript truthiness of a number: everything but [0], [-0] and [NaN]. *)
Definition truthy (x : float) : bool := negb (x =? 0) && (x =? x).

(** [charData[char]?.width || 10] *)
Definition width_or_10 (cd : gmap ascii CharData) (c : ascii) : float :=
  match cd !! c with
  | Some d => if truthy (cd_width d) then cd_width d else 10
  | None => 10
  end.

(** [calculatePath], for a canvas of [w] by [h] device pixels. *)
Definition calculatePath (w h dpr : float) : list Segment * float :=
  let b := (BORDER_SIZE * dpr) / 2 in
  let r := CORNER_RADIUS * dpr in
  let borderScaled := BORDER_SIZE * dpr in
  let segs :=
    [ Line (b + r) b (w - b - r) b (w - borderScaled - 2 * r) 0;
      Arc (w - b - r) (b + r) r (- Math_PI / 2) 0 (r * Math_PI / 2);
      Line (w - b) (b + r) (w - b) (h - b - r) (h - borderScaled - 2 * r)
           (Math_PI / 2);
      Arc (w - b - r) (h - b - r) r 0 (Math_PI / 2) (r * Math_PI / 2);
      Line (w - b - r) (h - b) (b + r) (h - b) (w - borderScaled - 2 * r)
           Math_PI;
      Arc (b + r) (h - b - r) r (Math_PI / 2) Math_PI (r * Math_PI / 2);
      Line b (h - b - r) b (b + r) (h - borderScaled - 2 * r)
           (- Math_PI / 2);
      Arc (b + r) (b + r) r Math_PI (Math_PI * 1.5) (r * Math_PI / 2) ] in
  (segs, fold_left (λ sum seg, sum + seg_length seg) segs 0).

Section WithHost.

Variable host : Host.

(** The [for (const seg of pathSegments)] loop of [getPointOnPath]. *)
Fixpoint walk_path (segs : list Segment) (accumulated distance : float) : Point :=
  match segs with
  | [] => {| pt_x := 0; pt_y := 0; pt_angle := 0 |}
  | seg :: rest =>
      if distance <=? accumulated + seg_length seg then
        let t := (distance - accumulated) / seg_length seg in
        match seg with
        | Line x1 y1 x2 y2 _ angle =>
            {| pt_x := x1 + (x2 - x1) * t;
               pt_y := y1 + (y2 - y1) * t;
               pt_angle := angle |}
        | Arc cx cy radius startAngle endAngle _ =>
            let angle := startAngle + (endAngle - startAngle) * t in
            {| pt_x := cx + Math_cos host angle * radius;
               pt_y := cy + Math_sin host angle * radius;
               pt_angle := angle + Math_PI / 2 |}
        end
      else walk_path rest (accumulated + seg_length seg) distance
  end.

(** [getPointOnPath] *)
Definition getPointOnPath (st : State) (distance : float) : Point :=
  let total := totalPathLength st in
  let distance := rem host (rem host distance total + total) total in
  walk_path (pathSegments st) 0 distance.

(** [baseTextWidth], the first loop of [buildGeometry]. *)
Definition baseTextWidth (st : State) : float :=
  let scale := dpr st in
  let letterSpacingScaled := LETTER_SPACING * scale in
  fold_left
    (λ acc c, acc + (width_or_10 (charData st) c * scale + letterSpacingScaled))
    TEXT 0.

Definition repetitions (st : State) : float :=
  Math_floor host (totalPathLength st / baseTextWidth st).

(** The quad of one character: twelve coordinates for each array. *)
Definition quad_positions (point : Point) (hw hh : float) : list float :=
  let cos := Math_cos host (pt_angle point) in
  let sin := Math_sin host (pt_angle point) in
  let corner (dx dy : float) : float * float :=
    (pt_x point + dx * cos - dy * sin, pt_y point + dx * sin + dy * cos) in
  let c0 := corner (- hw) (- hh) in
  let c1 := corner hw (- hh) in
  let c2 := corner (- hw) hh in
  let c3 := corner hw hh in
  [ fst c0; snd c0; fst c1; snd c1; fst c2; snd c2;
    fst c1; snd c1; fst c3; snd c3; fst c2; snd c2 ].

Definition quad_texCoords (cd : CharData) : list float :=
  [ u0 cd; v0 cd; u1 cd; v0 cd; u0 cd; v1 cd;
    u1 cd; v0 cd; u1 cd; v1 cd; u0 cd; v1 cd ].

(** The body of [for (const char of TEXT)] inside one repetition; the
    state threaded through is [charOffsetInRep] and the two arrays. *)
Definition char_step (st : State) (offset repStartOffset halfHeight : float)
    (acc : float * Geometry) (c : ascii) : float * Geometry :=
  let '(charOffsetInRep, g) := acc in
  match charData st !! c with
  | None => acc
  | Some cd =>
      let scale := dpr st in
      let letterSpacingScaled := LETTER_SPACING * scale in
      let charWidth := cd_width cd * scale in
      let charCenter := offset + repStartOffset + charOffsetInRep + charWidth / 2 in
      let point := getPointOnPath st charCenter in
      let hw := charWidth / 2 in
      let hh := halfHeight in
      (charOffsetInRep + (charWidth + letterSpacingScaled),
       {| positions := positions g ++ quad_positions point hw hh;
          texCoords := texCoords g ++ quad_texCoords cd |})
  end.

(** One pass of [for (let rep = 0; rep < repetitions; rep++)]. *)
Definition rep_step (st : State) (offset : float) (rep : float) (g : Geometry)
    : Geometry :=
  let scale := dpr st in
  let totalExtraSpace := totalPathLength st - baseTextWidth st * repetitions st in
  let gapBetweenRepetitions := totalExtraSpace / repetitions st in
  let halfHeight := ((FONT_SIZE + 8) / 2) * scale in
  let repStartOffset := rep * (baseTextWidth st + gapBetweenRepetitions) in
  snd (fold_left (char_step st offset repStartOffset halfHeight) TEXT (0, g)).

(** The repetition loop.  The counter is a binary64 number like every
    JavaScript number; [fuel] bounds the passes, and [None] says the bound
    was hit before [rep < repetitions] became false. *)
Fixpoint rep_loop (fuel : nat) (st : State) (offset rep : float) (g : Geometry)
    : option Geometry :=
  if rep <? repetitions st then
    match fuel with
    | O => None
    | S fuel' => rep_loop fuel' st offset (rep + 1) (rep_step st offset rep g)
    end
  else Some g.

(** [buildGeometry] *)
Definition buildGeometry (fuel : nat) (st : State) (offset : float)
    : option Geometry :=
  let empty := {| positions := []; texCoords := [] |} in
  if repetitions st <? 1 then Some empty
  else rep_loop fuel st offset 0 empty.


(** The characters of [TEXT] that have an atlas entry, i.e. the quads one
    repetition emits. *)
Definition rendered (st : State) : nat :=
  length (filter (λ c, is_Some (charData st !! c)) TEXT).

(** Both arrays hold twelve numbers for each of [quads] characters. *)
Definition holds_quads (quads : nat) (g : Geometry) : Prop :=
  length (positions g) = (12 * quads)%nat ∧
  length (texCoords g) = (12 * quads)%nat.











End WithHost.

(** *** A host to run the model on *)

Definition two52 : float := 4503599627370496.

(** [Math.floor] on binary64: below 2^52 in magnitude, adding and
    subtracting 2^52 rounds to the nearest integer, which is then stepped
    down when it lies above the argument. *)
Definition floor64 (x : float) : float :=
  if x =? 0 then x
  else if abs x <? two52 then
    let r := if 0 <? x then (x + two52) - two52 else (x - two52) + two52 in
    if x <? r then r - 1 else r
  else x.

(** The remainder operator [%] on binary64: exact, with the sign of the
    dividend. *)
Definition rem64 (x y : float) : float :=
  match Prim2SF x, Prim2SF y with
  | S754_nan, _ | _, S754_nan => nan
  | S754_infinity _, _ => nan
  | _, S754_zero _ => nan
  | _, S754_infinity _ => x
  | S754_zero _, _ => x
  | S754_finite sx mx ex, S754_finite _ my ey =>
      let e := Z.min ex ey in
      let X := (Z.pos mx * 2 ^ (ex - e))%Z in
      let Y := (Z.pos my * 2 ^ (ey - e))%Z in
      match (X mod Y)%Z with
      | Z.pos r => SF2Prim (S754_finite sx r e)
      | _ => SF2Prim (S754_zero sx)
      end
  end.

(** Cosine and sine as truncated Taylor series, close enough on the angles
    of the border path (between [-pi/2] and [2 pi]). *)
Definition cos_series (x : float) : float :=
  let x2 := x * x in
  1 - x2 / 2 * (1 - x2 / 12 * (1 - x2 / 30 * (1 - x2 / 56 * (1 - x2 / 90 *
  (1 - x2 / 132 * (1 - x2 / 182 * (1 - x2 / 240 * (1 - x2 / 306 *
  (1 - x2 / 380 * (1 - x2 / 462)))))))))).

Definition sin_series (x : float) : float :=
  let x2 := x * x in
  x * (1 - x2 / 6 * (1 - x2 / 20 * (1 - x2 / 42 * (1 - x2 / 72 *
  (1 - x2 / 110 * (1 - x2 / 156 * (1 - x2 / 210 * (1 - x2 / 272 *
  (1 - x2 / 342 * (1 - x2 / 420 * (1 - x2 / 506))))))))))).

Definition sample_host : Host :=
  {| Math_floor := floor64; Math_cos := cos_series; Math_sin := sin_series;
     rem := rem64 |}.

(** An atlas of equal cells, laid out left to right the way the second loop
    of [createCharacterAtlas] lays out its characters. *)
Definition atlas_of (chars : list ascii) (cell atlasWidth : float)
    : gmap ascii CharData :=
  snd (fold_left
         (λ (acc : float * gmap ascii CharData) c,
            let x := fst acc in
            (x + cell,
             <[c := {| cd_x := x; cd_width := cell;
                       u0 := x / atlasWidth; u1 := (x + cell) / atlasWidth;
                       v0 := 0; v1 := 1 |}]> (snd acc)))
         chars (0, ∅)).

(** An 800 by 600 canvas at device pixel ratio 1, with every character of
    [TEXT] in the atlas except [Z]. *)
Definition sample_state : State :=
  let '(segs, total) := calculatePath 800 600 1 in
  {| charData := atlas_of (String.list_ascii_of_string "DRAG IPFLEH") 13 256;
     pathSegments := segs; totalPathLength := total; dpr := 1 |}.

(** The state before [init] has run: no atlas, no path. *)
Definition blank_state : State :=
  {| charData := ∅; pathSegments := []; totalPathLength := 0; dpr := 1 |}.

Example sample_repetitions :
  baseTextWidth sample_state = 225 ∧ repetitions sample_host sample_state = 11 ∧
  rendered sample_state = 18%nat.
Proof. vm_compute. done. Qed.

Example sample_geometry_lengths :
  (λ g, (length (positions g), length (texCoords g)))
    <$> buildGeometry sample_host 16 sample_state 37.5
  = Some (2376%nat, 2376%nat).
Proof. vm_compute. reflexivity. Qed.

Example sample_geometry_out_of_fuel :
  buildGeometry sample_host 10 sample_state 37.5 = None.
Proof. vm_compute. reflexivity. Qed.

Example blank_geometry :
  baseTextWidth blank_state = 171 ∧
  buildGeometry sample_host 0 blank_state 0
  = Some {| positions := []; texCoords := [] |}.
Proof. vm_compute. done. Qed.





End Border.

(** ** The path resolver (design document, section 4.1) *)

Module Resolver.

Local Open Scope nat_scope.

Definition chars (s : string) : list ascii := String.list_ascii_of_string s.
Definition text (l : list ascii) : string := String.string_of_list_ascii l.

Definition slash : ascii := "/"%char.
Definition dot : list ascii := chars ".".
Definition dotdot : list ascii := chars "..".

(** [strip_prefix pre s] is what follows [pre] in [s], if [s] starts with it. *)
Fixpoint strip_prefix (pre s : list ascii) : option (list ascii) :=
  match pre, s with
  | [], _ => Some s
  | p :: pre', c :: s' => if decide (p = c) then strip_prefix pre' s' else None
  | _ :: _, [] => None
  end.

(** *** Reference resolution in RFC 3986, section 5.2

    The resolution of a relative reference against a base URI as the RFC
    words it; it works on the raw character buffers, with no notion of a
    segment list, and knows nothing of what a browser does to a reference
    before and while it parses it (see the URL Standard below). *)

(** Appendix B: the path of a reference is everything before the first
    [?] or [#]; the query runs from [?] to [#]; the fragment follows [#]. *)
Fixpoint break_at (stop : ascii → bool) (s : list ascii)
    : list ascii * list ascii :=
  match s with
  | [] => ([], [])
  | c :: rest =>
      if stop c then ([], s)
      else let '(a, b) := break_at stop rest in (c :: a, b)
  end.

Record Components := {
  c_path : list ascii;
  c_query : option (list ascii);
  c_fragment : option (list ascii)
}.

Definition is_query_or_hash (c : ascii) : bool :=
  bool_decide (c = "?"%char) || bool_decide (c = "#"%char).

Definition components (r : list ascii) : Components :=
  let '(path, rest) := break_at is_query_or_hash r in
  match rest with
  | [] => {| c_path := path; c_query := None; c_fragment := None |}
  | c :: rest' =>
      if bool_decide (c = "?"%char) then
        let '(q, rest'') := break_at (λ c, bool_decide (c = "#"%char)) rest' in
        {| c_path := path; c_query := Some q;
           c_fragment := match rest'' with [] => None | _ :: f => Some f end |}
      else {| c_path := path; c_query := None; c_fragment := Some rest' |}
  end.

(** The prefix of [s] up to and including its last [/]; empty if [s] has
    none. *)
Fixpoint through_last_slash (s : list ascii) : list ascii :=
  match s with
  | [] => []
  | c :: rest =>
      match through_last_slash rest with
      | [] => if decide (c = slash) then [c] else []
      | pre => c :: pre
      end
  end.

(** Section 5.2.3, for a base with an authority: an empty base path merges
    to [/] followed by the reference; otherwise the reference replaces
    whatever follows the last [/] of the base path. *)
Definition merge (base_path ref_path : list ascii) : list ascii :=
  match base_path with
  | [] => slash :: ref_path
  | _ => through_last_slash base_path ++ ref_path
  end.

(** Section 5.2.4, step 2C: drop the last segment of the output buffer and
    the [/] before it, if any. *)
Definition remove_last_segment (output : list ascii) : list ascii :=
  removelast (through_last_slash output).

(** Section 5.2.4, step 2E: the first path segment of the input buffer,
    with its initial [/] if any, up to but not including the next [/]. *)
Definition first_segment (input : list ascii) : list ascii * list ascii :=
  match input with
  | [] => ([], [])
  | c :: rest =>
      let '(a, b) := break_at (λ c, bool_decide (c = slash)) rest in
      (c :: a, b)
  end.

(** Section 5.2.4, the loop over the input buffer.  Every pass shortens the
    input, so [fuel] one above its length is enough. *)
Fixpoint rds_loop (fuel : nat) (input output : list ascii) : list ascii :=
  match fuel with
  | O => output
  | S fuel' =>
      if decide (input = []) then output
      else
      (* A *)
      match strip_prefix (chars "../") input with
      | Some rest => rds_loop fuel' rest output
      | None =>
      match strip_prefix (chars "./") input with
      | Some rest => rds_loop fuel' rest output
      | None =>
      (* B *)
      match strip_prefix (chars "/./") input with
      | Some rest => rds_loop fuel' (slash :: rest) output
      | None =>
      if decide (input = chars "/.") then rds_loop fuel' [slash] output
      else
      (* C *)
      match strip_prefix (chars "/../") input with
      | Some rest => rds_loop fuel' (slash :: rest) (remove_last_segment output)
      | None =>
      if decide (input = chars "/..")
      then rds_loop fuel' [slash] (remove_last_segment output)
      else
      (* D *)
      if decide (input = dot ∨ input = dotdot) then rds_loop fuel' [] output
      else
      (* E *)
      let '(seg, rest) := first_segment input in
      rds_loop fuel' rest (output ++ seg)
      end end end end
  end.

Definition remove_dot_segments (path : list ascii) : list ascii :=
  rds_loop (S (length path)) path [].

(** Section 5.2.2 for a reference with neither scheme nor authority: the
    path of the target URI. *)
Definition rfc3986_target_path (base_path r : list ascii) : list ascii :=
  let rpath := c_path (components r) in
  match rpath with
  | [] => base_path
  | c :: _ =>
      if decide (c = slash) then remove_dot_segments rpath
      else remove_dot_segments (merge base_path rpath)
  end.

(** *** The resolver of the design document *)

(** Modelled from the spec: the result of [resolve], [canonicalPath |
    ExternalReference]; the resolver is not in the source tree.  The
    canonical path comes with the query string and fragment that were cut
    off it, "preserved for any caller needing them". *)
Inductive Resolution :=
| Canonical (path : string) (suffix : string)
| ExternalReference.

Definition is_alpha (c : ascii) : bool :=
  let n := nat_of_ascii c in
  (65 <=? n) && (n <=? 90) || (97 <=? n) && (n <=? 122).

Definition is_scheme_char (c : ascii) : bool :=
  let n := nat_of_ascii c in
  is_alpha c || (48 <=? n) && (n <=? 57)
  || bool_decide (c = "+"%char) || bool_decide (c = "-"%char)
  || bool_decide (c = "."%char).

Fixpoint scheme_tail (s : list ascii) : bool :=
  match s with
  | [] => false
  | c :: rest =>
      if decide (c = ":"%char) then true
      else if is_scheme_char c then scheme_tail rest else false
  end.

(** Modelled from the spec: a reference is "scheme-absolute" when it starts
    with a scheme name and a colon. *)
Definition has_scheme (r : list ascii) : bool :=
  match r with
  | [] => false
  | c :: rest => is_alpha c && scheme_tail rest
  end.

(** Modelled from the spec: a reference is "relative" when it has no scheme
    and no [//host] in front. *)
Definition is_relative (r : list ascii) : bool :=
  negb (has_scheme r) && negb (bool_decide (is_Some (strip_prefix (chars "//") r))).

(** Modelled from the spec: the stripping of query strings and fragments
    before lookup ("query strings and fragments are stripped before lookup
    but preserved for any caller needing them"). *)
Fixpoint path_part (r : list ascii) : list ascii :=
  match r with
  | [] => []
  | c :: rest =>
      if decide (c = "?"%char ∨ c = "#"%char) then [] else c :: path_part rest
  end.

Definition suffix_part (r : list ascii) : list ascii :=
  drop (length (path_part r)) r.

(** The segments of a path, split at every [/]. *)
Fixpoint split_slash (s : list ascii) : list (list ascii) :=
  match s with
  | [] => [[]]
  | c :: rest =>
      if decide (c = slash) then [] :: split_slash rest
      else
        match split_slash rest with
        | seg :: segs => (c :: seg) :: segs
        | [] => [[c]]
        end
  end.

Fixpoint join_slash (segs : list (list ascii)) : list ascii :=
  match segs with
  | [] => []
  | [seg] => seg
  | seg :: rest => seg ++ slash :: join_slash rest
  end.

(** Modelled from the spec: one step of "standard hierarchical path
    composition" on the stack of segments built so far: [..] pops a segment
    (at the archive root there is nothing to pop, so the path is clamped
    there), [.] is a no-op, anything else is pushed. *)
Definition apply_segment (stack : list (list ascii)) (seg : list ascii)
    : list (list ascii) :=
  if decide (seg = dotdot) then removelast stack
  else if decide (seg = dot) then stack
  else stack ++ [seg].

(** Modelled from the spec: the composition of a whole segment list.  A
    path whose last segment is [.] or [..] names a directory, which the
    canonical form shows as a trailing [/], that is an empty last segment. *)
Definition compose (segs : list (list ascii)) : list (list ascii) :=
  let stack := fold_left apply_segment segs [] in
  match last segs with
  | Some seg =>
      if decide (seg = dot ∨ seg = dotdot) then stack ++ [[]] else stack
  | None => stack
  end.

(** The segments of the directory of the document at [basePath]. *)
Definition dir_segments (basePath : list ascii) : list (list ascii) :=
  removelast (split_slash basePath).

(** Modelled from the spec: the relative case of [resolve] (section 4.1,
    third rule).  The query string and fragment are cut off; what is left is
    composed with the directory of [basePath], or from the archive root when
    it starts with [/]; an empty path means the document itself. *)
Definition resolve_relative (basePath r : list ascii) : Resolution :=
  let path := path_part r in
  let suffix := text (suffix_part r) in
  match path with
  | [] => Canonical (text basePath) suffix
  | c :: rest =>
      if decide (c = slash)
      then Canonical (text (join_slash (compose (split_slash rest)))) suffix
      else Canonical
             (text (join_slash (compose (dir_segments basePath ++ split_slash path))))
             suffix
  end.

Section WithOrigin.

(** The synthetic virtual origin of the archive, e.g. [https://report.invalid]. *)
Variable virtualOrigin : list ascii.

(** Modelled from the spec: [resolve(basePath, reference)] of section 4.1;
    the resolver is not in the source tree.  A reference on the virtual
    origin is stripped of the origin and what remains is resolved from the
    archive root; any other scheme-absolute reference, and any reference
    that names a host, is an [ExternalReference]; the rest is the relative
    case. *)
Definition resolve (basePath reference : string) : Resolution :=
  let r := chars reference in
  if has_scheme r then
    match strip_prefix virtualOrigin r with
    | Some rest =>
        match rest with
        | [] => resolve_relative (chars basePath) [slash]
        | c :: _ =>
            if decide (c = slash) then resolve_relative (chars basePath) rest
            else if decide (c = "?"%char ∨ c = "#"%char)
            then resolve_relative (chars basePath) (slash :: rest)
            else ExternalReference
        end
    | None => ExternalReference
    end
  else if negb (is_relative r) then ExternalReference
  else resolve_relative (chars basePath) r.

End WithOrigin.

(** *** The reference algorithm of browsers: the URL Standard

    What a browser does with a reference is the basic URL parser of the
    URL Standard (WHATWG), run on the reference with the URL of the
    document as base.  The document of an archive lives on the virtual
    origin, an [https] URL, which the standard calls special; below are the
    steps the parser takes for such a base when the reference has neither a
    scheme nor a host, and of the URL it builds only the path, a list of
    segments.  This is not RFC 3986: the parser strips and removes blanks,
    reads a backslash as a slash, percent-encodes what a path may not
    hold, and knows dot segments spelled with [%2e]. *)

Definition code (c : ascii) : nat := nat_of_ascii c.

Definition backslash : ascii := ascii_of_nat 92.

(** "C0 control or space": U+0000 to U+0020. *)
Definition is_c0_control_or_space (c : ascii) : bool := code c <=? 32.

(** "ASCII tab or newline": U+0009, U+000A, U+000D. *)
Definition is_tab_or_newline (c : ascii) : bool :=
  (code c =? 9) || (code c =? 10) || (code c =? 13).

Fixpoint strip_leading (input : list ascii) : list ascii :=
  match input with
  | [] => []
  | c :: rest => if is_c0_control_or_space c then strip_leading rest else input
  end.

Definition strip_trailing (input : list ascii) : list ascii :=
  rev (strip_leading (rev input)).

Definition remove_tab_or_newline (input : list ascii) : list ascii :=
  filter (λ c, is_tab_or_newline c = false) input.

(** The first steps of the parser: "remove any leading and trailing C0
    control or space from input", then "remove all ASCII tab or newline
    from input". *)
Definition preprocess (input : list ascii) : list ascii :=
  remove_tab_or_newline (strip_trailing (strip_leading input)).

(** The path percent-encode set: C0 controls and everything above [~]
    (the C0 control percent-encode set), space, the double quote, [#], [<]
    and [>] (added by the query set), and [?], [^], the backquote, [{] and
    [}]. *)
Definition in_path_percent_encode_set (c : ascii) : bool :=
  let n := code c in
  (n <=? 32) || (126 <? n)
  || (n =? 34) || (n =? 35) || (n =? 60) || (n =? 62)
  || (n =? 63) || (n =? 94) || (n =? 96) || (n =? 123) || (n =? 125).

Definition hex_digit (n : nat) : ascii :=
  nth n (chars "0123456789ABCDEF") "0"%char.

(** Percent-encoding of one byte: [%] and two upper-case hex digits. *)
Definition percent_encode (c : ascii) : list ascii :=
  ["%"%char; hex_digit (code c / 16); hex_digit (code c mod 16)].

Definition encode_path_char (c : ascii) : list ascii :=
  if in_path_percent_encode_set c then percent_encode c else [c].

Definition ascii_lower (c : ascii) : ascii :=
  if (65 <=? code c) && (code c <=? 90) then ascii_of_nat (code c + 32) else c.

(** A single-dot URL path segment is [.] or an ASCII case-insensitive
    match for [%2e]; a double-dot one is [..] or such a match for [.%2e],
    [%2e.] or [%2e%2e]. *)
Definition is_single_dot (seg : list ascii) : bool :=
  bool_decide (map ascii_lower seg ∈ [chars "."; chars "%2e"]).

Definition is_double_dot (seg : list ascii) : bool :=
  bool_decide (map ascii_lower seg
               ∈ [chars ".."; chars ".%2e"; chars "%2e."; chars "%2e%2e"]).

(** In a special URL a backslash separates segments like a slash. *)
Definition is_separator (c : ascii) : bool :=
  bool_decide (c = slash) || bool_decide (c = backslash).

(** Path state, at the end of a segment ([c] is the end of the input, a
    separator, [?] or [#]): a double-dot segment shortens the path, that is
    removes its last segment if any; a dot segment that no separator
    follows leaves an empty segment; any other buffer is appended. *)
Definition end_segment (separator_follows : bool) (buffer : list ascii)
    (path : list (list ascii)) : list (list ascii) :=
  if is_double_dot buffer then
    if separator_follows then removelast path else removelast path ++ [[]]
  else if is_single_dot buffer then
    if separator_follows then path else path ++ [[]]
  else path ++ [buffer].

(** Path state: every other character goes to the buffer, percent-encoded
    if the path percent-encode set holds it.  The query and the fragment
    that follow [?] and [#] take no part in the path. *)
Fixpoint path_state (input buffer : list ascii) (path : list (list ascii))
    : list (list ascii) :=
  match input with
  | [] => end_segment false buffer path
  | c :: rest =>
      if is_separator c then path_state rest [] (end_segment true buffer path)
      else if is_query_or_hash c then end_segment false buffer path
      else path_state rest (buffer ++ encode_path_char c) path
  end.

(** Relative state and relative slash state.  At the end of the input, and
    before [?] or [#], the path is the base's; after one separator the path
    starts afresh, and a second separator would start a host, which is no
    path-relative reference ([None]); otherwise the base's path is shortened
    and the path state goes on from there. *)
Definition relative_state (base : list (list ascii)) (input : list ascii)
    : option (list (list ascii)) :=
  match input with
  | [] => Some base
  | c :: rest =>
      if is_separator c then
        match rest with
        | c' :: _ =>
            if is_separator c' then None else Some (path_state rest [] [])
        | [] => Some (path_state rest [] [])
        end
      else if is_query_or_hash c then Some base
      else Some (path_state input [] (removelast base))
  end.

(** The path of the URL that the parser builds for [reference] against a
    base with the path [base]; [None] when the reference has a scheme or a
    host.  Scheme start state and scheme state find a scheme exactly where
    [has_scheme] does. *)
Definition browser_path (base : list (list ascii)) (reference : list ascii)
    : option (list (list ascii)) :=
  let input := preprocess reference in
  if has_scheme input then None else relative_state base input.

(** The path that the parser gave the URL of the document at [basePath] on
    the virtual origin: path start state takes the [/] after the host, path
    state reads the rest. *)
Definition browser_base (basePath : list ascii) : list (list ascii) :=
  path_state (remove_tab_or_newline (strip_trailing basePath)) [] [].

(** *** References the parser leaves as they are *)





(** *** Segment view of the character buffers *)

(** A buffer made of segments is each segment behind its own [/]. *)
Definition flat (segs : list (list ascii)) : list ascii :=
  concat (map (cons slash) segs).

Definition no_slash (s : list ascii) : Prop := slash ∉ s.

(** What section 5.2.4 computes, told on segments: the output stack after
    the input segments have gone through; the last input segment leaves an
    empty segment behind when it is a dot segment. *)
Fixpoint norm (stack segs : list (list ascii)) : list (list ascii) :=
  match segs with
  | [] => stack
  | [seg] =>
      if decide (seg = dot ∨ seg = dotdot)
      then apply_segment stack seg ++ [[]]
      else apply_segment stack seg
  | seg :: rest => norm (apply_segment stack seg) rest
  end.

Lemma strip_prefix_app pre x : strip_prefix pre (pre ++ x) = Some x.
Proof. induction pre as [|p pre IH]; [done|]. simpl. by rewrite decide_True. Qed.

Lemma strip_prefix_Some pre : ∀ s x, strip_prefix pre s = Some x → s = pre ++ x.
Proof.
  induction pre as [|p pre IH]; intros s x H; simpl in H.
  - by injection H as ->.
  - destruct s as [|c s]; [done|]. case_decide; [|done]. subst.
    by rewrite (IH _ _ H).
Qed.

Lemma flat_cons s segs : flat (s :: segs) = slash :: s ++ flat segs.
Proof. done. Qed.

Lemma flat_app a b : flat (a ++ b) = flat a ++ flat b.
Proof. unfold flat. by rewrite map_app, concat_app. Qed.

Lemma flat_head segs : flat segs = [] ∨ ∃ t, flat segs = slash :: t.
Proof. destruct segs as [|s segs]; [by left|right]. rewrite flat_cons. eauto. Qed.

Lemma no_slash_cons c s : no_slash (c :: s) ↔ c ≠ slash ∧ no_slash s.
Proof.
  unfold no_slash. rewrite not_elem_of_cons.
  split; intros [? ?]; split; congruence.
Qed.

Lemma no_slash_nil : no_slash [].
Proof. unfold no_slash. apply not_elem_of_nil. Qed.

(** Reading the head of a segment followed by further segments. *)
Lemma seg_head_not_slash s segs c y :
  no_slash s → c ≠ slash → s ++ flat segs = c :: y →
  ∃ s', s = c :: s' ∧ s' ++ flat segs = y ∧ no_slash s'.
Proof.
  intros Hs Hc H. destruct s as [|c' s'].
  - simpl in H. destruct (flat_head segs) as [E|[t E]]; rewrite E in H; congruence.
  - simpl in H. injection H as -> <-. apply no_slash_cons in Hs as [_ Hs]. eauto.
Qed.

Lemma seg_head_slash s segs y :
  no_slash s → s ++ flat segs = slash :: y → s = [].
Proof.
  intros Hs H. destruct s as [|c' s']; [done|].
  simpl in H. injection H as -> _. by apply no_slash_cons in Hs as [? _].
Qed.

Lemma seg_end s segs : s ++ flat segs = [] → s = [].
Proof. by intros [-> _]%app_eq_nil. Qed.

Lemma break_at_slash s t :
  no_slash s → (t = [] ∨ ∃ t', t = slash :: t') →
  break_at (λ c, bool_decide (c = slash)) (s ++ t) = (s, t).
Proof.
  intros Hs Ht. induction s as [|c s IH]; simpl.
  - by destruct Ht as [->|[t' ->]].
  - apply no_slash_cons in Hs as [Hc Hs].
    rewrite bool_decide_eq_false_2 by done. by rewrite (IH Hs).
Qed.

Lemma first_segment_flat s segs :
  no_slash s → first_segment (flat (s :: segs)) = (slash :: s, flat segs).
Proof.
  intros Hs. rewrite flat_cons. unfold first_segment.
  rewrite break_at_slash; [done|done|]. apply flat_head.
Qed.

Lemma through_last_slash_none t : no_slash t → through_last_slash t = [].
Proof.
  induction t as [|c t IH]; [done|]. intros [Hc Ht]%no_slash_cons.
  simpl. rewrite (IH Ht). by rewrite decide_False.
Qed.

Lemma through_last_slash_app a t :
  no_slash t → through_last_slash (a ++ slash :: t) = a ++ [slash].
Proof.
  intros Ht. induction a as [|c a IH]; simpl.
  - by rewrite (through_last_slash_none t Ht).
  - rewrite IH. by destruct a.
Qed.

Lemma through_last_slash_flat stack s :
  no_slash s → through_last_slash (flat (stack ++ [s])) = flat stack ++ [slash].
Proof.
  intros Hs. rewrite flat_app. unfold flat at 2. simpl. rewrite app_nil_r.
  by apply through_last_slash_app.
Qed.

Lemma remove_last_segment_flat stack :
  Forall no_slash stack →
  remove_last_segment (flat stack) = flat (removelast stack).
Proof.
  intros Hall. destruct stack as [|s0 stack0] using rev_ind; [done|].
  apply Forall_app in Hall as [_ Hs%Forall_inv].
  unfold remove_last_segment. rewrite through_last_slash_flat by done.
  by rewrite !removelast_last.
Qed.

Lemma split_slash_nonempty s : split_slash s ≠ [].
Proof.
  destruct s as [|c s]; [done|]. simpl. case_decide; [done|].
  by destruct (split_slash s).
Qed.

Lemma split_slash_no_slash s : Forall no_slash (split_slash s).
Proof.
  induction s as [|c s IH]; simpl.
  - constructor; [apply no_slash_nil|constructor].
  - case_decide.
    + constructor; [apply no_slash_nil|done].
    + destruct (split_slash s) as [|seg segs].
      * constructor; [|constructor]. apply no_slash_cons. split; [done|apply no_slash_nil].
      * apply Forall_cons in IH as [Hseg Hsegs].
        constructor; [|done]. by apply no_slash_cons.
Qed.

Lemma flat_split_slash s : flat (split_slash s) = slash :: s.
Proof.
  induction s as [|c s IH]; [done|]. simpl. case_decide.
  - subst. rewrite flat_cons, IH. done.
  - pose proof (split_slash_nonempty s).
    destruct (split_slash s) as [|seg segs]; [done|].
    rewrite flat_cons in *. simpl. injection IH as <-. done.
Qed.

Lemma flat_join segs : drop 1 (flat segs) = join_slash segs.
Proof.
  induction segs as [|s segs IH]; [done|]. rewrite flat_cons. simpl. rewrite drop_0.
  destruct segs as [|s' segs]; [by rewrite app_nil_r|].
  rewrite <- IH. by rewrite flat_cons.
Qed.

Lemma removelast_no_slash stack :
  Forall no_slash stack → Forall no_slash (removelast stack).
Proof.
  intros H. destruct stack as [|s0 stack0] using rev_ind; [done|].
  rewrite removelast_last. by apply Forall_app in H as [? _].
Qed.

Lemma apply_segment_no_slash stack s :
  Forall no_slash stack → no_slash s → Forall no_slash (apply_segment stack s).
Proof.
  intros Hstack Hs. unfold apply_segment. repeat case_decide.
  - by apply removelast_no_slash.
  - done.
  - apply Forall_app. split; [done|]. by constructor.
Qed.

(** A segment that is not a dot segment is moved to the output by step 2E;
    none of the steps 2A to 2D applies to it. *)
Lemma rds_loop_plain fuel s rest output :
  no_slash s → s ≠ dot → s ≠ dotdot →
  rds_loop (S fuel) (flat (s :: rest)) output
  = rds_loop fuel (flat rest) (output ++ slash :: s).
Proof.
  intros Hs Hd Hdd.
  assert (Hfirst := first_segment_flat s rest Hs).
  rewrite flat_cons in *. cbn [rds_loop].
  rewrite decide_False by done.
  replace (strip_prefix (chars "../") (slash :: s ++ flat rest)) with (@None (list ascii)) by done.
  replace (strip_prefix (chars "./") (slash :: s ++ flat rest)) with (@None (list ascii)) by done.
  destruct (strip_prefix (chars "/./") (slash :: s ++ flat rest)) as [x|] eqn:EB.
  { apply strip_prefix_Some in EB. injection EB as EB.
    apply seg_head_not_slash in EB as (s' & -> & EB & Hs'); [|done|done].
    apply seg_head_slash in EB as ->; done. }
  rewrite decide_False.
  2: { intros E. injection E as E.
       apply seg_head_not_slash in E as (s' & -> & E & Hs'); [|done|done].
       apply seg_end in E as ->. done. }
  destruct (strip_prefix (chars "/../") (slash :: s ++ flat rest)) as [x|] eqn:EC.
  { apply strip_prefix_Some in EC. injection EC as EC.
    apply seg_head_not_slash in EC as (s' & -> & EC & Hs'); [|done|done].
    apply seg_head_not_slash in EC as (s'' & -> & EC & Hs''); [|done|done].
    apply seg_head_slash in EC as ->; done. }
  rewrite decide_False.
  2: { intros E. injection E as E.
       apply seg_head_not_slash in E as (s' & -> & E & Hs'); [|done|done].
       apply seg_head_not_slash in E as (s'' & -> & E & Hs''); [|done|done].
       apply seg_end in E as ->. done. }
  rewrite decide_False by (by intros [E|E]).
  by rewrite Hfirst.
Qed.

Lemma rds_loop_dot_mid fuel s rest output :
  rds_loop (S fuel) (flat (dot :: s :: rest)) output
  = rds_loop fuel (flat (s :: rest)) output.
Proof. done. Qed.

Lemma rds_loop_dot_end fuel output :
  rds_loop (S fuel) (flat [dot]) output = rds_loop fuel (flat [[]]) output.
Proof. done. Qed.

Lemma rds_loop_dotdot_mid fuel s rest output :
  rds_loop (S fuel) (flat (dotdot :: s :: rest)) output
  = rds_loop fuel (flat (s :: rest)) (remove_last_segment output).
Proof. done. Qed.

Lemma rds_loop_dotdot_end fuel output :
  rds_loop (S fuel) (flat [dotdot]) output
  = rds_loop fuel (flat [[]]) (remove_last_segment output).
Proof. done. Qed.

Lemma no_slash_dot : no_slash dot ∧ no_slash dotdot.
Proof. split; unfold no_slash; intros H; by repeat (apply elem_of_cons in H as [?|H]; [done|]); apply elem_of_nil in H. Qed.

Lemma apply_segment_plain stack s :
  s ≠ dot → s ≠ dotdot → apply_segment stack s = stack ++ [s].
Proof. intros. unfold apply_segment. by rewrite !decide_False. Qed.

Lemma norm_cons stack s s' rest :
  norm stack (s :: s' :: rest) = norm (apply_segment stack s) (s' :: rest).
Proof. done. Qed.

Lemma norm_single stack :
  norm stack [[]] = stack ++ [[]] ∧
  norm stack [dot] = stack ++ [[]] ∧
  norm stack [dotdot] = removelast stack ++ [[]].
Proof. done. Qed.

(** Section 5.2.4 on a buffer of segments is [norm] on the segments. *)
Lemma rds_loop_flat fuel : ∀ segs stack,
  Forall no_slash segs → Forall no_slash stack →
  length (flat segs) < fuel →
  rds_loop fuel (flat segs) (flat stack) = flat (norm stack segs).
Proof.
  induction fuel as [|fuel IH]; intros segs stack Hsegs Hstack Hlen; [lia|].
  destruct segs as [|s rest]; [done|].
  apply Forall_cons in Hsegs as [Hs Hrest].
  assert (Hnil : Forall no_slash [[]]) by (constructor; [apply no_slash_nil|done]).
  destruct (decide (s = dot)) as [->|Hd]; [|destruct (decide (s = dotdot)) as [->|Hdd]].
  - destruct rest as [|s' rest'].
    + rewrite rds_loop_dot_end, (IH [[]] stack); [|done|done|simpl in *; lia].
      destruct (norm_single stack) as (-> & -> & _). done.
    + rewrite rds_loop_dot_mid, (IH (s' :: rest') stack); [done|done|done|].
      rewrite !flat_cons in *. simpl in *. lia.
  - destruct rest as [|s' rest'].
    + rewrite rds_loop_dotdot_end, remove_last_segment_flat by done.
      rewrite (IH [[]]); [|done|by apply removelast_no_slash|simpl in *; lia].
      destruct (norm_single stack) as (_ & _ & ->).
      by destruct (norm_single (removelast stack)) as (-> & _ & _).
    + rewrite rds_loop_dotdot_mid, remove_last_segment_flat by done.
      rewrite (IH (s' :: rest')); [done|done|by apply removelast_no_slash|].
      rewrite !flat_cons in *. simpl in *. lia.
  - rewrite rds_loop_plain by done.
    replace (flat stack ++ slash :: s) with (flat (stack ++ [s])).
    2: { rewrite flat_app. unfold flat at 2. simpl. by rewrite app_nil_r. }
    rewrite IH; [|done| |].
    + destruct rest as [|s' rest'].
      * simpl. rewrite decide_False by (by intros [?|?]).
        by rewrite apply_segment_plain.
      * by rewrite norm_cons, apply_segment_plain.
    + apply Forall_app. split; [done|]. by constructor.
    + rewrite flat_cons in Hlen. simpl in Hlen. rewrite length_app in Hlen. lia.
Qed.

Lemma norm_fold : ∀ segs stack,
  segs ≠ [] →
  norm stack segs
  = fold_left apply_segment segs stack ++
    match last segs with
    | Some seg => if decide (seg = dot ∨ seg = dotdot) then [[]] else []
    | None => []
    end.
Proof.
  induction segs as [|s rest IH]; intros stack Hne; [done|].
  destruct rest as [|s' rest'].
  - simpl. case_decide; [done|]. by rewrite app_nil_r.
  - rewrite norm_cons, IH by done. done.
Qed.

Lemma norm_compose segs : segs ≠ [] → norm [] segs = compose segs.
Proof.
  intros Hne. rewrite norm_fold by done. unfold compose.
  destruct (last segs) as [seg|]; [|by rewrite app_nil_r].
  case_decide; [done|]. by rewrite app_nil_r.
Qed.

Lemma remove_dot_segments_flat segs :
  Forall no_slash segs → segs ≠ [] →
  drop 1 (remove_dot_segments (flat segs)) = join_slash (compose segs).
Proof.
  intros Hall Hne. unfold remove_dot_segments.
  rewrite (rds_loop_flat _ segs []); [|done|done|lia].
  by rewrite flat_join, norm_compose.
Qed.

Lemma through_last_slash_base p :
  through_last_slash (slash :: p) = flat (dir_segments p) ++ [slash].
Proof.
  rewrite <- flat_split_slash. unfold dir_segments.
  pose proof (split_slash_nonempty p) as Hne.
  pose proof (split_slash_no_slash p) as Hall.
  destruct (split_slash p) as [|s0 segs0] using rev_ind; [done|].
  apply Forall_app in Hall as [_ Hs%Forall_inv].
  by rewrite removelast_last, through_last_slash_flat.
Qed.

Lemma merge_flat p rpath :
  merge (slash :: p) rpath = flat (dir_segments p ++ split_slash rpath).
Proof.
  unfold merge. rewrite through_last_slash_base, flat_app, flat_split_slash.
  by rewrite <- app_assoc.
Qed.

Lemma path_part_components r : c_path (components r) = path_part r.
Proof.
  unfold components.
  assert (H : fst (break_at is_query_or_hash r) = path_part r).
  { induction r as [|c r IH]; [done|]. simpl. unfold is_query_or_hash at 1.
    destruct (decide (c = "?"%char ∨ c = "#"%char)) as [[->| ->]|Hn]; [done|done|].
    rewrite !bool_decide_eq_false_2 by tauto. simpl.
    destruct (break_at is_query_or_hash r). simpl in *. by rewrite IH. }
  destruct (break_at is_query_or_hash r) as [path rest]. simpl in H. subst.
  destruct rest as [|c rest']; [done|].
  case_bool_decide; [|done].
  by destruct (break_at _ rest').
Qed.

Definition sample_origin : list ascii := chars "https://report.invalid".

Example resolve_dot_slash :
  resolve sample_origin "index.html" "./app.js" = Canonical "app.js" "".
Proof. vm_compute. reflexivity. Qed.

Example resolve_plain :
  resolve sample_origin "index.html" "img/logo.png" = Canonical "img/logo.png" "".
Proof. vm_compute. reflexivity. Qed.

Example resolve_parent :
  resolve sample_origin "trace/viewer/index.html" "../media/frame1.png"
  = Canonical "trace/media/frame1.png" "".
Proof. vm_compute. reflexivity. Qed.

Example resolve_root_query :
  resolve sample_origin "trace/viewer/index.html" "/data/report.json?v=3#top"
  = Canonical "data/report.json" "?v=3#top".
Proof. vm_compute. reflexivity. Qed.

Example resolve_external :
  resolve sample_origin "index.html" "https://fonts.example.com/font.woff2"
  = ExternalReference.
Proof. vm_compute. reflexivity. Qed.

Example resolve_same_origin :
  resolve sample_origin "a/b.html" "https://report.invalid/x/../y.css"
  = Canonical "y.css" "".
Proof. vm_compute. reflexivity. Qed.

Example resolve_same_origin_root :
  resolve sample_origin "a/b.html" "https://report.invalid?tab=2"
  = Canonical "" "?tab=2".
Proof. vm_compute. reflexivity. Qed.

Example resolve_other_host :
  resolve sample_origin "a/b.html" "https://report.invalid.example.com/x.js"
  = ExternalReference.
Proof. vm_compute. reflexivity. Qed.

Example resolve_clamped :
  resolve sample_origin "a/b.html" "../../../c.js" = Canonical "c.js" "".
Proof. vm_compute. reflexivity. Qed.

Example resolve_directory :
  resolve sample_origin "a/b/c.html" ".." = Canonical "a/" "".
Proof. vm_compute. reflexivity. Qed.

(** The fixed table of (base, reference, expected) triples, run through the
    reference algorithm. *)
Definition triples : list (string * string * string) :=
  [ ("index.html", "./app.js", "/app.js");
    ("index.html", "img/logo.png", "/img/logo.png");
    ("trace/viewer/index.html", "../media/frame1.png", "/trace/media/frame1.png");
    ("trace/viewer/index.html", "/data/report.json?v=3#top", "/data/report.json");
    ("a/b.html", "../../../c.js", "/c.js");
    ("a/b/c.html", "..", "/a/");
    ("a/b/c.html", ".", "/a/b/");
    ("a/b/c.html", "", "/a/b/c.html");
    ("a/b/c.html", "?page=2", "/a/b/c.html");
    ("a/b/c.html", "x//y/./z/../w", "/a/b/x//y/w");
    ("a/b/c.html", "..x/.y/...", "/a/b/..x/.y/...") ]%string.

Example rfc3986_table :
  Forall (λ '(base, r, expected),
            rfc3986_target_path (slash :: chars base) (chars r) = chars expected)
         triples.
Proof. repeat constructor. Qed.

Example resolve_table :
  Forall (λ '(base, r, expected),
            ∃ suffix, resolve sample_origin base r
                      = Canonical (text (drop 1 (chars expected))) suffix)
         triples.
Proof. repeat (constructor; [eexists; vm_compute; reflexivity|]). constructor. Qed.

(** For every base path and every relative reference (no scheme, no host),
    [resolve] returns the target path that RFC 3986, section 5.2, computes
    for the pair, without its leading [/]; the query string and fragment are
    cut off the path and handed back beside it. *)
Lemma resolve_matches_rfc3986 (origin : list ascii) (p r : string) :
  is_relative (chars r) = true →
  resolve origin p r
  = Canonical
      (text (drop 1 (rfc3986_target_path (slash :: chars p) (chars r))))
      (text (suffix_part (chars r))).
Proof.
  intros Hrel. unfold resolve. rewrite Hrel.
  unfold is_relative in Hrel. apply andb_prop in Hrel as [Hs%negb_true_iff _].
  rewrite Hs. simpl negb. cbv iota.
  unfold resolve_relative, rfc3986_target_path.
  rewrite path_part_components.
  destruct (path_part (chars r)) as [|c rest] eqn:Epath; [done|].
  case_decide as Hc.
  - subst c. rewrite <- (flat_split_slash rest).
    rewrite remove_dot_segments_flat;
      [done|apply split_slash_no_slash|apply split_slash_nonempty].
  - rewrite merge_flat, remove_dot_segments_flat; [done| |].
    + apply Forall_app. split; [|apply split_slash_no_slash].
      apply removelast_no_slash, split_slash_no_slash.
    + intros [_ E]%app_eq_nil. by apply split_slash_nonempty in E.
Qed.

(** *** The resolver and the URL Standard *)






















Example browser_table :
  Forall (λ '(base, r, expected),
            browser_path (browser_base (chars base)) (chars r)
            = Some (split_slash (drop 1 (chars expected))))
         triples.
Proof. repeat constructor. Qed.

(** What the parser does and the resolver does not: dot segments spelled
    with [%2e], blanks around the reference, characters that a path holds
    only percent-encoded. *)
Example browser_rewrites :
  browser_path (browser_base (chars "a/b/c.html")) (chars " ./app.js")
  = Some [chars "a"; chars "b"; chars "app.js"] ∧
  resolve sample_origin "a/b/c.html" " ./app.js"
  = Canonical "a/b/ ./app.js" "" ∧
  browser_path (browser_base (chars "a/b/c.html")) (chars "my file.png")
  = Some [chars "a"; chars "b"; chars "my%20file.png"] ∧
  resolve sample_origin "a/b/c.html" "my file.png"
  = Canonical "a/b/my file.png" "" ∧
  browser_path (browser_base (chars "a/b/c.html"))
               (chars "x" ++ backslash :: chars "y.js")
  = Some [chars "a"; chars "b"; chars "x"; chars "y.js"].
Proof. vm_compute. done. Qed.

(** The URL of a document has had its dot segments resolved by the parser;
    the resolver takes the base path as it is given. *)
Example browser_normalizes_base :
  browser_base (chars "a/b/../c.html") = [chars "a"; chars "c.html"] ∧
  resolve sample_origin "a/b/../c.html" "" = Canonical "a/b/../c.html" "" ∧
  browser_path (browser_base (chars "a/..")) (chars "x.js")
  = Some [chars "x.js"] ∧
  resolve sample_origin "a/.." "x.js" = Canonical "a/x.js" "".
Proof. vm_compute. done. Qed.




End Resolver.

(** ** The drag-over overlay under every event *)

Module OverlayProtocol.

Import DragOverlay.

(** What every handler and the observer keep true: a visible overlay has an
    open drag and is not disabled, and the [active] class of the canvas
    mirrors [isVisible]. *)
Definition coherent (s : State) : Prop :=
  (isVisible s = true → 1 ≤ dragEnterCount s ∧ isDisabled s = false) ∧
  canvasActive s = isVisible s.

Lemma show_effect s :
  isVisible (show s) = true ∧ isDisabled (show s) = isDisabled s ∧
  dragEnterCount (show s) = dragEnterCount s ∧
  canvasActive (show s) = if isVisible s then canvasActive s else true.
Proof.
  unfold show. destruct (isVisible s) eqn:E; [done|].
  by destruct (getPanFromCursor s).
Qed.

Lemma step_coherent s ev : coherent s → coherent (step s ev).
Proof.
  intros [Hvis Hact]. destruct ev as [e| |e| |b]; simpl.
  - unfold handleDragEnter. destruct (isDisabled s) eqn:Hd.
    { split; [intros Hv; by destruct (Hvis Hv)|done]. }
    simpl.
    destruct (Z.eqb_spec (dragEnterCount s + 1) 1) as [E|E].
    + destruct (show_effect (set_mouse e (set_count (dragEnterCount s + 1) s)))
        as (Hv & Hdis & Hc & Ha). simpl in *.
      split.
      * intros _. rewrite Hc, Hdis. split; [lia|done].
      * rewrite Ha, Hv. destruct (isVisible s); [by rewrite Hact|done].
    + split; simpl; [|done]. intros Hv. destruct (Hvis Hv). split; [lia|done].
  - unfold handleDragLeave. simpl.
    destruct (Z.eqb_spec (dragEnterCount s - 1) 0) as [E|E].
    + by split.
    + split; simpl; [|done]. intros Hv. destruct (Hvis Hv). split; [lia|done].
  - by split.
  - by split.
  - unfold observe, disable, enable.
    destruct b, (isDisabled s) eqn:Hd; simpl;
      (split; simpl; [intros Hv; try done; by destruct (Hvis Hv)|done]).
Qed.

(** From the initial state, after any sequence of drag events and observer
    callbacks: a visible overlay has [dragEnterCount >= 1] and is not
    disabled, and the canvas carries the [active] class exactly when
    [isVisible] is set. *)
Theorem overlay_coherent (w h : float) (evs : list Event) :
  (isVisible (run evs (init w h)) = true →
   1 ≤ dragEnterCount (run evs (init w h)) ∧
   isDisabled (run evs (init w h)) = false) ∧
  canvasActive (run evs (init w h)) = isVisible (run evs (init w h)).
Proof.
  assert (H : ∀ s, coherent s → coherent (run evs s)).
  { induction evs as [|ev evs IH]; intros s Hs; [done|].
    simpl. apply IH. by apply step_coherent. }
  apply (H (init w h)). by split.
Qed.

Definition is_enter_or_leave (ev : Event) : bool :=
  match ev with
  | DragEnter _ | DragLeave => true
  | _ => false
  end.

(** The number of dragleave events in a run. *)
Fixpoint leaves (evs : list Event) : nat :=
  match evs with
  | [] => O
  | DragLeave :: rest => S (leaves rest)
  | _ :: rest => leaves rest
  end.

(** While the overlay is disabled [handleDragEnter] returns before it
    counts, but [handleDragLeave] still decrements: over any run of
    dragenter and dragleave events the overlay stays disabled and
    [dragEnterCount] falls by the number of dragleave events, however many
    dragenter events came with them. *)
Theorem disabled_leaves_still_count (s : State) (evs : list Event) :
  isDisabled s = true →
  forallb is_enter_or_leave evs = true →
  isDisabled (run evs s) = true ∧
  dragEnterCount (run evs s) = dragEnterCount s - Z.of_nat (leaves evs).
Proof.
  revert s. induction evs as [|ev evs IH]; intros s Hd Hall.
  - simpl. split; [done|]. lia.
  - simpl in Hall. apply andb_prop in Hall as [Hev Hall].
    destruct ev as [e| |e| |b]; try done; simpl.
    + unfold handleDragEnter. rewrite Hd.
      exact (IH s Hd Hall).
    + assert (Hd' : isDisabled (handleDragLeave s) = true).
      { unfold handleDragLeave. simpl. by destruct (_ =? 0). }
      assert (Hc' : dragEnterCount (handleDragLeave s) = dragEnterCount s - 1).
      { unfold handleDragLeave. simpl. by destruct (_ =? 0). }
      destruct (IH _ Hd' Hall) as [H1 H2]. split; [done|].
      rewrite H2, Hc'. cbn [leaves]. lia.
Qed.

(** Two drags pass over the page while the report frame is open: the
    counter ends at -2. *)
Lemma disabled_leaves_still_count_witness :
  isDisabled (run [Observed true] (init 1280 720)) = true ∧
  dragEnterCount
    (run [ DragEnter {| clientX := 5; clientY := 5 |}; DragLeave;
           DragEnter {| clientX := 9; clientY := 9 |}; DragLeave ]
         (run [Observed true] (init 1280 720)))
  = -2.
Proof.
  split; [reflexivity|].
  apply (disabled_leaves_still_count
           (run [Observed true] (init 1280 720))
           [ DragEnter {| clientX := 5; clientY := 5 |}; DragLeave;
             DragEnter {| clientX := 9; clientY := 9 |}; DragLeave ]);
    reflexivity.
Defined.

End OverlayProtocol.

(** ** The character atlas ([createCharacterAtlas], the same code in both
    modules) *)

Module Atlas.

Import Border.

Local Open Scope float_scope.

(** What [createCharacterAtlas] asks of the host: the advance width that
    [ctx.measureText] reports for a character in the atlas font, and
    [Math.ceil], [Math.log2], [Math.pow]. *)
Record Host := {
  measureText : ascii → float;
  Math_ceil : float → float;
  Math_log2 : float → float;
  Math_pow : float → float → float
}.

(** An entry of [charMetrics]. *)
Record CharMetrics := { m_width : float; m_height : float }.

(** What the function leaves behind: [charData], [atlasWidth] and
    [atlasHeight].  The drawing into the offscreen canvas and the texture
    upload write nothing that the modules read back. *)
Record Atlas := {
  charData : gmap ascii CharData;
  atlasWidth : float;
  atlasHeight : float
}.

(** [[...new Set(TEXT)]]: the characters of the text, each once, in the
    order of their first occurrence. *)
Definition uniqueChars (text : list ascii) : list ascii :=
  fold_left (λ seen c, if bool_decide (c ∈ seen) then seen else seen ++ [c])
            text [].

Section WithHost.

Variable host : Host.

(** The body of the measuring loop: [charMetrics[char] = ...] and
    [totalWidth += charMetrics[char].width]. *)
Definition measure_step (acc : gmap ascii CharMetrics * float) (c : ascii)
    : gmap ascii CharMetrics * float :=
  let m := {| m_width := Math_ceil host (measureText host c) + 4;
              m_height := FONT_SIZE + 8 |} in
  (<[c := m]> (fst acc), snd acc + m_width m).

(** The body of the placing loop.  [None] stands for the [TypeError] that
    reading [m.width] would raise were [charMetrics[char]] undefined. *)
Definition place_step (metrics : gmap ascii CharMetrics) (aw : float)
    (acc : option (float * gmap ascii CharData)) (c : ascii)
    : option (float * gmap ascii CharData) :=
  match acc with
  | None => None
  | Some (x, cd) =>
      match metrics !! c with
      | None => None
      | Some m =>
          Some (x + m_width m,
                <[c := {| cd_x := x; cd_width := m_width m;
                          u0 := x / aw; u1 := (x + m_width m) / aw;
                          v0 := 0; v1 := 1 |}]> cd)
      end
  end.

(** [createCharacterAtlas], for the module's [TEXT] and the [charData] it
    finds. *)
Definition createCharacterAtlas (text : list ascii) (cd0 : gmap ascii CharData)
    : option Atlas :=
  let chars := uniqueChars text in
  let '(metrics, totalWidth) := fold_left measure_step chars (∅, 0) in
  let aw := Math_pow host 2 (Math_ceil host (Math_log2 host totalWidth)) in
  let ah := Math_pow host 2 (Math_ceil host (Math_log2 host (FONT_SIZE + 8))) in
  match fold_left (place_step metrics aw) chars (Some (0, cd0)) with
  | None => None
  | Some (_, cd) => Some {| charData := cd; atlasWidth := aw; atlasHeight := ah |}
  end.

(** The width the atlas gives a character. *)
Definition cell_width (c : ascii) : float :=
  Math_ceil host (measureText host c) + 4.

(** The left edge of the cell that follows the cells of [before]. *)
Definition cell_x (before : list ascii) : float :=
  fold_left (λ x c, x + cell_width c) before 0.

(** The entry the placing loop writes for a character whose cell starts
    at [x]. *)
Definition cell (aw x : float) (c : ascii) : CharData :=
  {| cd_x := x; cd_width := cell_width c;
     u0 := x / aw; u1 := (x + cell_width c) / aw; v0 := 0; v1 := 1 |}.

Definition x_from (x0 : float) (before : list ascii) : float :=
  fold_left (λ x c, x + cell_width c) before x0.

Lemma uniqueChars_fold (text : list ascii) : ∀ seen,
  NoDup seen →
  NoDup (fold_left (λ seen c, if bool_decide (c ∈ seen) then seen else seen ++ [c])
                   text seen) ∧
  ∀ c, c ∈ fold_left (λ seen c, if bool_decide (c ∈ seen) then seen else seen ++ [c])
                     text seen
       ↔ c ∈ seen ∨ c ∈ text.
Proof.
  induction text as [|a text IH]; intros seen Hnd; simpl.
  - split; [done|]. intros c. rewrite elem_of_nil. tauto.
  - case_bool_decide as Ha.
    + destruct (IH seen Hnd) as [H1 H2]. split; [done|].
      intros c. rewrite H2, elem_of_cons.
      split; [tauto|]. intros [?|[->|?]]; tauto.
    + assert (Hnd' : NoDup (seen ++ [a])).
      { apply NoDup_app. split; [done|]. split; [|apply NoDup_singleton].
        intros x Hx ->%list_elem_of_singleton. done. }
      destruct (IH _ Hnd') as [H1 H2]. split; [done|].
      intros c. rewrite H2, elem_of_app, list_elem_of_singleton, elem_of_cons. tauto.
Qed.

Lemma uniqueChars_NoDup text : NoDup (uniqueChars text).
Proof. apply uniqueChars_fold. constructor. Qed.

Lemma elem_of_uniqueChars text c : c ∈ uniqueChars text ↔ c ∈ text.
Proof.
  unfold uniqueChars.
  destruct (uniqueChars_fold text [] (NoDup_nil_2 (A:=ascii))) as [_ H].
  rewrite H, elem_of_nil. tauto.
Qed.

Lemma measure_fold (chars : list ascii) : ∀ acc c,
  c ∈ chars ∨
  fst acc !! c = Some {| m_width := cell_width c; m_height := FONT_SIZE + 8 |} →
  fst (fold_left measure_step chars acc) !! c
  = Some {| m_width := cell_width c; m_height := FONT_SIZE + 8 |}.
Proof.
  induction chars as [|a chars IH]; intros acc c Hc; simpl.
  - destruct Hc as [Hc|Hc]; [by apply elem_of_nil in Hc|done].
  - apply IH. destruct (decide (c = a)) as [->|Hne].
    + right. simpl. by rewrite lookup_insert_eq.
    + destruct Hc as [Hc|Hc].
      * apply elem_of_cons in Hc as [?|?]; [done|by left].
      * right. simpl. by rewrite lookup_insert_ne.
Qed.

Lemma place_fold metrics aw (chars : list ascii) : ∀ x cd,
  NoDup chars →
  (∀ c, c ∈ chars →
        metrics !! c = Some {| m_width := cell_width c; m_height := FONT_SIZE + 8 |}) →
  ∃ cd',
    fold_left (place_step metrics aw) chars (Some (x, cd))
    = Some (x_from x chars, cd') ∧
    (∀ i c, chars !! i = Some c →
            cd' !! c = Some (cell aw (x_from x (take i chars)) c)) ∧
    (∀ c, c ∉ chars → cd' !! c = cd !! c).
Proof.
  induction chars as [|a chars IH]; intros x cd Hnd Hm.
  - exists cd. split; [done|]. split; [|done]. intros i c H. by destruct i.
  - apply NoDup_cons in Hnd as [Ha Hnd].
    cbn [fold_left]. unfold place_step at 2.
    rewrite (Hm a) by (apply elem_of_cons; by left). cbn [m_width].
    destruct (IH (x + cell_width a)
                 (<[a := cell aw x a]> cd) Hnd) as (cd' & Hrun & Hin & Hout).
    { intros c Hc. apply Hm, elem_of_cons. by right. }
    exists cd'. split; [exact Hrun|]. split.
    + intros [|i] c Hc; simpl in Hc.
      * injection Hc as <-. rewrite (Hout a Ha). by rewrite lookup_insert_eq.
      * exact (Hin i c Hc).
    + intros c Hc. apply not_elem_of_cons in Hc as [Hne Hc].
      rewrite (Hout c Hc). by rewrite lookup_insert_ne.
Qed.

(** The atlas comes out whatever the text and the host, and the characters
    of the text are its cells in the order of [uniqueChars]. *)
Lemma createCharacterAtlas_cells text cd0 :
  ∃ atlas,
    createCharacterAtlas text cd0 = Some atlas ∧
    (∀ i c, uniqueChars text !! i = Some c →
            charData atlas !! c
            = Some (cell (atlasWidth atlas) (cell_x (take i (uniqueChars text))) c)) ∧
    (∀ c, c ∉ text → charData atlas !! c = cd0 !! c).
Proof.
  unfold createCharacterAtlas.
  pose proof (measure_fold (uniqueChars text) (∅, 0)) as Hmeasure.
  destruct (fold_left measure_step (uniqueChars text) (∅, 0))
    as [metrics totalWidth]. simpl in Hmeasure.
  set (aw := Math_pow host 2 (Math_ceil host (Math_log2 host totalWidth))).
  destruct (place_fold metrics aw (uniqueChars text) 0 cd0
              (uniqueChars_NoDup text)) as (cd' & Hrun & Hin & Hout).
  { intros c Hc. apply Hmeasure. by left. }
  rewrite Hrun. eexists. split; [done|]. simpl. split; [exact Hin|].
  intros c Hc. apply Hout. by rewrite elem_of_uniqueChars.
Qed.

End WithHost.

(** After [createCharacterAtlas] every character of the text has an atlas
    entry, of width [Math.ceil(measureText(char).width) + 4] and spanning
    the full height of the texture, with texture coordinates that are its
    pixel span divided by [atlasWidth]; entries of [charData] for other
    characters are left as they were.  The call cannot fail on a missing
    [charMetrics] entry. *)
Theorem atlas_covers_text (host : Host) (text : list ascii)
    (cd0 : gmap ascii CharData) :
  ∃ atlas,
    createCharacterAtlas host text cd0 = Some atlas ∧
    (∀ c, c ∈ text →
       ∃ d, charData atlas !! c = Some d ∧
            cd_width d = Math_ceil host (measureText host c) + 4 ∧
            u0 d = cd_x d / atlasWidth atlas ∧
            u1 d = (cd_x d + cd_width d) / atlasWidth atlas ∧
            v0 d = 0 ∧ v1 d = 1) ∧
    (∀ c, c ∉ text → charData atlas !! c = cd0 !! c).
Proof.
  destruct (createCharacterAtlas_cells host text cd0) as (atlas & Hrun & Hin & Hout).
  exists atlas. split; [done|]. split; [|done].
  intros c Hc. apply (elem_of_uniqueChars text) in Hc.
  apply list_elem_of_lookup in Hc as [i Hi].
  eexists. split; [exact (Hin i c Hi)|]. done.
Qed.

(** The cells tile the atlas from its left edge: the first distinct
    character of the text sits at [x = 0], and each later one starts where
    its predecessor ends, so that its [u0] is the predecessor's [u1]. *)
Theorem atlas_cells_adjacent (host : Host) (text : list ascii)
    (cd0 : gmap ascii CharData) :
  ∃ atlas,
    createCharacterAtlas host text cd0 = Some atlas ∧
    (∀ a, uniqueChars text !! 0%nat = Some a →
       ∃ da, charData atlas !! a = Some da ∧ cd_x da = 0) ∧
    (∀ i a b,
       uniqueChars text !! i = Some a → uniqueChars text !! S i = Some b →
       ∃ da db, charData atlas !! a = Some da ∧ charData atlas !! b = Some db ∧
                cd_x db = cd_x da + cd_width da ∧ u0 db = u1 da).
Proof.
  destruct (createCharacterAtlas_cells host text cd0) as (atlas & Hrun & Hin & Hout).
  exists atlas. split; [done|]. split.
  - intros a Ha. eexists. split; [exact (Hin 0%nat a Ha)|]. done.
  - intros i a b Ha Hb. eexists _, _.
    split; [exact (Hin i a Ha)|]. split; [exact (Hin (S i) b Hb)|].
    rewrite (take_S_r _ _ _ Ha). unfold cell_x, cell. simpl.
    rewrite fold_left_app. done.
Qed.

End Atlas.

(** ** The drag-over overlay: geometry, rendering and start-up *)

Module OverlayRender.

Local Open Scope float_scope.

Definition TEXT : list ascii := String.list_ascii_of_string "DROP ".
Definition FONT_SIZE : float := 14.
Definition ROW_HEIGHT : float := 24.
Definition ANIMATION_SPEED : float := 20.
(** [LERP_FACTOR = 0.08], as the binary64 number the literal denotes. *)
Definition LERP_FACTOR : float := 0x1.47ae147ae147bp-4.

(** The built-ins the overlay's geometry uses beyond binary64 arithmetic. *)
Record Host := {
  Math_ceil : float → float;
  Math_sqrt : float → float;
  Math_max : float → float → float;
  rem : float → float → float
}.

(** The overlay's state beyond the drag protocol: the atlas, the row
    offsets, the canvas size in device pixels, what [window] reports, whether
    [init] has attached the window listeners, and what has been handed to
    WebGL (the last buffer contents and the number of [drawArrays] calls). *)
Record Scene := {
  ui : DragOverlay.State;
  charData : gmap ascii Border.CharData;
  atlasWidth : float;
  atlasHeight : float;
  rowOffsets : list float;
  canvasWidth : float;
  canvasHeight : float;
  dpr : float;
  devicePixelRatio : float;
  listening : bool;
  buffers : Border.Geometry;
  drawCalls : nat
}.

(** An array length or a loop counter as a JavaScript number; such values
    stay far below 2^53, where binary64 counts exactly. *)
Definition num (n : nat) : float :=
  PrimFloat.of_uint63 (Uint63Axioms.of_Z (Z.of_nat n)).

(** [getTextWidth] *)
Definition getTextWidth (sc : Scene) : float :=
  fold_left (λ width c, width + Border.width_or_10 (charData sc) c * dpr sc)
            TEXT 0.

Section WithHost.

Variable host : Host.

Definition diagonal (sc : Scene) : float :=
  let w := canvasWidth sc in
  let h := canvasHeight sc in
  let panMargin := Math_max host w h * DragOverlay.PAN_SCALE in
  Math_sqrt host (w * w + h * h) + panMargin * 2.

Definition numRows (sc : Scene) : float :=
  Math_ceil host (diagonal sc / (ROW_HEIGHT * dpr sc)) + 4.

Definition repsNeeded (sc : Scene) : float :=
  Math_ceil host (diagonal sc / getTextWidth sc) + 4.

(** [while (rowOffsets.length < numRows) rowOffsets.push(0)] *)
Fixpoint grow_rows (fuel : nat) (limit : float) (rows : list float)
    : option (list float) :=
  if num (length rows) <? limit then
    match fuel with
    | O => None
    | S fuel' => grow_rows fuel' limit (rows ++ [0])
    end
  else Some rows.

(** The body of [for (const char of TEXT)]: the state threaded through is
    [charX] and the two arrays. *)
Definition char_step (sc : Scene) (rowY halfHeight : float)
    (acc : float * Border.Geometry) (c : ascii) : float * Border.Geometry :=
  let '(charX, g) := acc in
  match charData sc !! c with
  | None => acc
  | Some cd =>
      let charWidth := Border.cd_width cd * dpr sc in
      let x0 := charX in
      let x1 := charX + charWidth in
      let y0 := rowY - halfHeight in
      let y1 := rowY + halfHeight in
      (charX + charWidth,
       {| Border.positions :=
            Border.positions g
            ++ [x0; y0; x1; y0; x0; y1; x1; y0; x1; y1; x0; y1];
          Border.texCoords :=
            Border.texCoords g ++ Border.quad_texCoords cd |})
  end.

(** [for (let rep = 0; rep < repsNeeded; rep++)] *)
Fixpoint rep_loop (fuel : nat) (sc : Scene) (rowY halfHeight startX textWidth : float)
    (rep : nat) (g : Border.Geometry) : option Border.Geometry :=
  if num rep <? repsNeeded sc then
    match fuel with
    | O => None
    | S fuel' =>
        let charX := startX + num rep * textWidth in
        rep_loop fuel' sc rowY halfHeight startX textWidth (S rep)
          (snd (fold_left (char_step sc rowY halfHeight) TEXT (charX, g)))
    end
  else Some g.

(** [for (let row = 0; row < numRows; row++)], over the row offsets as the
    [while] loop left them; [inner] is the fuel of each repetition loop. *)
Fixpoint row_loop (fuel inner : nat) (sc : Scene) (rows : list float)
    (row : nat) (g : Border.Geometry) : option Border.Geometry :=
  if num row <? numRows sc then
    match fuel with
    | O => None
    | S fuel' =>
        let w := canvasWidth sc in
        let h := canvasHeight sc in
        let rowHeightScaled := ROW_HEIGHT * dpr sc in
        let textWidth := getTextWidth sc in
        let halfHeight := ((FONT_SIZE + 8) / 2) * dpr sc in
        let centerX := w / 2 in
        let centerY := h / 2 in
        let rowY := centerY + (num row - numRows sc / 2) * rowHeightScaled in
        (* an index past the end reads [undefined], which is NaN in [%] *)
        let offset := default nan (rows !! row) in
        let rowOffset := if rem host (num row) 2 =? 0 then 0 else textWidth / 2 in
        let startX :=
          centerX - diagonal sc / 2 - textWidth + rem host offset textWidth
          + rowOffset in
        match rep_loop inner sc rowY halfHeight startX textWidth O g with
        | None => None
        | Some g' => row_loop fuel' inner sc rows (S row) g'
        end
    end
  else Some g.

(** [buildGeometry]: the arrays it returns and [rowOffsets] as it leaves
    them. *)
Definition buildGeometry (fuel : nat) (sc : Scene)
    : option (Border.Geometry * list float) :=
  match grow_rows fuel (numRows sc) (rowOffsets sc) with
  | None => None
  | Some rows =>
      match row_loop fuel fuel sc rows O
              {| Border.positions := []; Border.texCoords := [] |} with
      | None => None
      | Some g => Some (g, rows)
      end
  end.

(** The characters of [TEXT] that have an atlas entry. *)
Definition rendered (sc : Scene) : nat :=
  length (filter (λ c, is_Some (charData sc !! c)) TEXT).

Lemma overlay_char_fold_quads sc rowY hh (cs : list ascii) : ∀ acc q,
  Border.holds_quads q (snd acc) →
  Border.holds_quads
    (q + length (filter (λ c, is_Some (charData sc !! c)) cs))
    (snd (fold_left (char_step sc rowY hh) cs acc)).
Proof.
  induction cs as [|c cs IH]; intros acc q Hg.
  - simpl. by rewrite Nat.add_0_r.
  - cbn [fold_left]. rewrite filter_cons.
    destruct (charData sc !! c) as [cd|] eqn:E.
    + rewrite decide_True by eauto. simpl length.
      rewrite Nat.add_succ_r, <- Nat.add_succ_l. apply IH.
      destruct acc as [x g]. destruct Hg as [Hp Ht].
      unfold char_step, Border.holds_quads. rewrite E. simpl in *.
      rewrite !length_app. simpl. lia.
    + rewrite decide_False by (by intros [? ?]).
      replace (char_step sc rowY hh acc c) with acc; [by apply IH|].
      unfold char_step. destruct acc. by rewrite E.
Qed.

Lemma overlay_rep_loop_quads fuel sc rowY hh startX tw : ∀ rep g g' q,
  Border.holds_quads (q * rendered sc) g →
  rep_loop fuel sc rowY hh startX tw rep g = Some g' →
  ∃ q', Border.holds_quads (q' * rendered sc) g'.
Proof.
  induction fuel as [|fuel IH]; intros rep g g' q Hg Hrun; simpl in Hrun.
  - destruct (num rep <? repsNeeded sc); [done|]. injection Hrun as <-. eauto.
  - destruct (num rep <? repsNeeded sc).
    + eapply (IH _ _ _ (S q)); [|exact Hrun].
      replace (S q * rendered sc)%nat with (q * rendered sc + rendered sc)%nat by lia.
      by apply (overlay_char_fold_quads sc rowY hh TEXT (_, g)).
    + injection Hrun as <-. eauto.
Qed.

Lemma row_loop_quads fuel inner sc rows : ∀ row g g' q,
  Border.holds_quads (q * rendered sc) g →
  row_loop fuel inner sc rows row g = Some g' →
  ∃ q', Border.holds_quads (q' * rendered sc) g'.
Proof.
  induction fuel as [|fuel IH]; intros row g g' q Hg Hrun; simpl in Hrun.
  - destruct (num row <? numRows sc); [done|]. injection Hrun as <-. eauto.
  - destruct (num row <? numRows sc); [|injection Hrun as <-; eauto].
    destruct (rep_loop inner sc _ _ _ _ O g) as [g1|] eqn:Hrep; [|done].
    destruct (overlay_rep_loop_quads _ _ _ _ _ _ _ _ _ q Hg Hrep) as [q1 Hq1].
    exact (IH _ _ _ q1 Hq1 Hrun).
Qed.

Lemma grow_rows_extends fuel limit : ∀ rows rows',
  grow_rows fuel limit rows = Some rows' →
  ∃ k, rows' = rows ++ replicate k 0.
Proof.
  induction fuel as [|fuel IH]; intros rows rows' Hrun; simpl in Hrun.
  - destruct (num (length rows) <? limit); [done|].
    injection Hrun as <-. exists O. by rewrite app_nil_r.
  - destruct (num (length rows) <? limit).
    + destruct (IH _ _ Hrun) as [k ->]. exists (S k).
      by rewrite <- app_assoc.
    + injection Hrun as <-. exists O. by rewrite app_nil_r.
Qed.

(** A counter or length [n] below 2^53 is the whole number [n]. *)
Lemma num_whole n :
  (Z.of_nat n < 2 ^ 53)%Z → Whole.is_whole (num n) (Z.of_nat n).
Proof. intros Hn. apply Whole.is_whole_of_uint63. lia. Qed.

Lemma num_ltb n k :
  (Z.of_nat n < 2 ^ 53)%Z → (Z.of_nat k < 2 ^ 53)%Z →
  (num n <? num k) = bool_decide (n < k)%nat.
Proof.
  intros Hn Hk.
  rewrite (Whole.is_whole_ltb _ _ _ _ (num_whole n Hn) (num_whole k Hk)).
  case_bool_decide; [apply Z.ltb_lt|apply Z.ltb_ge]; lia.
Qed.

(** Up to a whole number [R] of rows the [while] loop pushes the zeros
    that are missing, and none when the array is long enough. *)
Lemma grow_rows_whole limit R :
  limit = num R → (Z.of_nat R < 2 ^ 53)%Z →
  ∀ fuel rows, (Z.of_nat (length rows) < 2 ^ 53)%Z →
  (R - length rows ≤ fuel)%nat →
  grow_rows fuel limit rows = Some (rows ++ replicate (R - length rows) 0).
Proof.
  intros -> HR fuel.
  induction fuel as [|fuel IH]; intros rows Hlen Hfuel;
    cbn [grow_rows]; rewrite num_ltb by done.
  - rewrite bool_decide_false by lia.
    replace (R - length rows)%nat with O by lia. simpl. by rewrite app_nil_r.
  - case_bool_decide as Hlt.
    + rewrite IH by (rewrite length_app; simpl; lia).
      rewrite length_app, <- app_assoc. simpl.
      by replace (R - length rows)%nat with (S (R - (length rows + 1))) by lia.
    + replace (R - length rows)%nat with O by lia. simpl. by rewrite app_nil_r.
Qed.

(** With a whole number [P] of repetitions the inner loop makes the
    [P - rep] passes that are left, each adding one run of [TEXT]. *)
Lemma overlay_rep_loop_whole sc rowY hh startX tw P :
  repsNeeded sc = num P → (Z.of_nat P < 2 ^ 53)%Z →
  ∀ fuel rep g q, (rep ≤ P)%nat → (P - rep ≤ fuel)%nat →
  Border.holds_quads q g →
  ∃ g', rep_loop fuel sc rowY hh startX tw rep g = Some g' ∧
        Border.holds_quads (q + (P - rep) * rendered sc) g'.
Proof.
  intros HP HPb fuel.
  induction fuel as [|fuel IH]; intros rep g q Hrep Hfuel Hg;
    assert (E : (num rep <? repsNeeded sc) = bool_decide (rep < P)%nat)
      by (rewrite HP; apply num_ltb; lia);
    cbn [rep_loop]; rewrite E.
  - rewrite bool_decide_false by lia. exists g. split; [done|].
    by replace (q + (P - rep) * rendered sc)%nat with q by lia.
  - case_bool_decide as Hlt.
    + cbv zeta.
      match goal with
      | |- ∃ _, rep_loop _ _ _ _ _ _ _ ?g0 = _ ∧ _ =>
          destruct (IH (S rep) g0 (q + rendered sc)%nat) as (g' & Hrun & Hg');
            [lia|lia| |]
      end.
      { by apply (overlay_char_fold_quads sc rowY hh TEXT (_, g)). }
      exists g'. split; [done|].
      by replace (q + (P - rep) * rendered sc)%nat
        with (q + rendered sc + (P - S rep) * rendered sc)%nat by nia.
    + exists g. split; [done|].
      by replace (q + (P - rep) * rendered sc)%nat with q by nia.
Qed.

(** With whole numbers [R] of rows and [P] of repetitions the outer loop
    makes the [R - row] passes that are left, each running the inner loop
    to its end. *)
Lemma row_loop_whole sc rows R P inner :
  numRows sc = num R → repsNeeded sc = num P →
  (Z.of_nat R < 2 ^ 53)%Z → (Z.of_nat P < 2 ^ 53)%Z → (P ≤ inner)%nat →
  ∀ fuel row g q, (row ≤ R)%nat → (R - row ≤ fuel)%nat →
  Border.holds_quads q g →
  ∃ g', row_loop fuel inner sc rows row g = Some g' ∧
        Border.holds_quads (q + (R - row) * (P * rendered sc)) g'.
Proof.
  intros HR HP HRb HPb Hinner fuel.
  induction fuel as [|fuel IH]; intros row g q Hrow Hfuel Hg;
    assert (E : (num row <? numRows sc) = bool_decide (row < R)%nat)
      by (rewrite HR; apply num_ltb; lia);
    cbn [row_loop]; rewrite E.
  - rewrite bool_decide_false by lia. exists g. split; [done|].
    by replace (q + (R - row) * (P * rendered sc))%nat with q by lia.
  - case_bool_decide as Hlt.
    + cbv zeta.
      match goal with
      | |- ∃ _, match rep_loop ?i ?s ?y ?hh ?sx ?tw ?r ?g0 with _ => _ end = _ ∧ _ =>
          destruct (overlay_rep_loop_whole s y hh sx tw P HP HPb i r g0 q)
            as (g1 & Hg1 & Hq1); [lia|lia|done|]
      end.
      rewrite Hg1.
      destruct (IH (S row) g1 (q + (P - 0) * rendered sc)%nat)
        as (g' & Hrun & Hg'); [lia|lia|done|].
      exists g'. split; [done|].
      by replace (q + (R - row) * (P * rendered sc))%nat
        with (q + (P - 0) * rendered sc + (R - S row) * (P * rendered sc))%nat
        by nia.
    + exists g. split; [done|].
      by replace (q + (R - row) * (P * rendered sc))%nat with q by nia.
Qed.

End WithHost.

(** Whenever the overlay's [buildGeometry] returns, [positions] and
    [texCoords] have the same length, twelve numbers for every quad drawn,
    and the quads come in whole runs of the [TEXT] characters found in the
    atlas; [rowOffsets] afterwards is what it was, followed by zeros only. *)
Lemma overlay_geometry_runs (host : Host) (sc : Scene) fuel g rows :
  buildGeometry host fuel sc = Some (g, rows) →
  length (Border.positions g) = length (Border.texCoords g) ∧
  (∃ runs, length (Border.positions g) = (12 * (runs * rendered sc))%nat) ∧
  (∃ k, rows = rowOffsets sc ++ replicate k 0).
Proof.
  intros Hrun. unfold buildGeometry in Hrun.
  destruct (grow_rows fuel _ _) as [rows1|] eqn:Hgrow; [|done].
  destruct (row_loop host fuel fuel sc rows1 O _) as [g1|] eqn:Hrows; [|done].
  injection Hrun as <- <-.
  assert (H0 : Border.holds_quads (0 * rendered sc)
                 {| Border.positions := []; Border.texCoords := [] |})
    by (by split).
  destruct (row_loop_quads host _ _ _ _ _ _ _ O H0 Hrows) as [runs [Hp Ht]].
  split; [congruence|]. split; [eauto|].
  exact (grow_rows_extends _ _ _ _ Hgrow).
Qed.

(** The overlay's [buildGeometry] draws every row and every repetition it
    computes.  When [numRows] is the whole number [R] and [repsNeeded] the
    whole number [P] (below 2^53, and with all three arrays within the 2^32
    elements a JavaScript array can hold) and the fuel covers [R] and [P]
    passes, it returns; [positions] and [texCoords] then hold exactly 12
    numbers for each of [R * P] runs of the [TEXT] characters found in the
    atlas, and [rowOffsets] is what it was, followed by the zeros it lacked
    to be [R] long. *)
Theorem overlay_geometry_shape (host : Host) (sc : Scene) (R P fuel : nat) :
  numRows host sc = num R → repsNeeded host sc = num P →
  (Z.of_nat R < 2 ^ 32)%Z → (Z.of_nat P < 2 ^ 53)%Z →
  (Z.of_nat (length (rowOffsets sc)) < 2 ^ 32)%Z →
  (12 * Z.of_nat (R * P * rendered sc) < 2 ^ 32)%Z →
  (R ≤ fuel)%nat → (P ≤ fuel)%nat →
  ∃ g, buildGeometry host fuel sc
       = Some (g, rowOffsets sc ++ replicate (R - length (rowOffsets sc)) 0) ∧
       Border.holds_quads (R * P * rendered sc) g.
Proof.
  intros HR HP HRb' HPb Hlen' _ HfR HfP. unfold buildGeometry.
  assert (HRb : (Z.of_nat R < 2 ^ 53)%Z) by lia.
  assert (Hlen : (Z.of_nat (length (rowOffsets sc)) < 2 ^ 53)%Z) by lia.
  rewrite (grow_rows_whole (numRows host sc) R HR HRb fuel) by (done || lia).
  destruct (row_loop_whole host sc
              (rowOffsets sc ++ replicate (R - length (rowOffsets sc)) 0)
              R P fuel HR HP HRb HPb HfP fuel O
              {| Border.positions := []; Border.texCoords := [] |} O)
    as (g & Hrun & Hg); [lia|lia|by split|].
  rewrite Hrun. exists g. split; [done|].
  by replace (R * P * rendered sc)%nat
    with (0 + (R - 0) * (P * rendered sc))%nat by nia.
Qed.

(** *** A host and a scene to run the overlay on *)

(** [Math.ceil] through [Math.floor]: the two mirror each other. *)
Definition ceil64 (x : float) : float := - Border.floor64 (- x).

(** [Math.max] of two numbers: NaN if either is, and [+0] above [-0]. *)
Definition max64 (x y : float) : float :=
  if negb (x =? x) || negb (y =? y) then nan
  else if x =? y then (if x =? 0 then x + y else x)
  else if x <? y then y else x.

Definition sample_host : Host :=
  {| Math_ceil := ceil64; Math_sqrt := PrimFloat.sqrt; Math_max := max64;
     rem := Border.rem64 |}.

(** A 40 by 20 canvas at device pixel ratio 1 with all of [TEXT] in the
    atlas and no row offsets yet. *)
Definition sample_scene : Scene :=
  {| ui := DragOverlay.init 40 20;
     charData := Border.atlas_of (String.list_ascii_of_string "DROP ") 13 128;
     atlasWidth := 128; atlasHeight := 32;
     rowOffsets := [];
     canvasWidth := 40; canvasHeight := 20; dpr := 1;
     devicePixelRatio := 1; listening := true;
     buffers := {| Border.positions := []; Border.texCoords := [] |};
     drawCalls := 0 |}.

Example sample_scene_counts :
  numRows sample_host sample_scene = 8 ∧
  repsNeeded sample_host sample_scene = 6 ∧
  rendered sample_scene = 5%nat.
Proof. vm_compute. done. Qed.

Example sample_scene_geometry :
  (λ r, (length (Border.positions (fst r)), length (Border.texCoords (fst r)),
         length (snd r)))
    <$> buildGeometry sample_host 8 sample_scene
  = Some ((12 * 240)%nat, (12 * 240)%nat, 8%nat).
Proof. vm_compute. reflexivity. Qed.

(** The shape theorem on the sample scene: 8 rows of 6 repetitions of the
    5 characters, and 8 row offsets where there were none. *)
Lemma overlay_geometry_shape_witness :
  numRows sample_host sample_scene = num 8 ∧
  repsNeeded sample_host sample_scene = num 6 ∧
  (12 * Z.of_nat (8 * 6 * rendered sample_scene) < 2 ^ 32)%Z ∧
  ∃ g, buildGeometry sample_host 8 sample_scene
       = Some (g, rowOffsets sample_scene
                  ++ replicate (8 - length (rowOffsets sample_scene)) 0) ∧
       Border.holds_quads (8 * 6 * rendered sample_scene) g.
Proof.
  split; [vm_compute; reflexivity|]. split; [vm_compute; reflexivity|].
  split; [vm_compute; reflexivity|].
  apply (overlay_geometry_shape sample_host sample_scene 8 6 8);
    first [vm_compute; reflexivity | simpl; lia].
Defined.

End OverlayRender.

(** ** The drag-over overlay: start-up, frames and the event loop *)

Module OverlayLoop.

Import OverlayRender.

Local Open Scope float_scope.

(** The host of the whole module: the built-ins of the geometry, those of
    the atlas, and the number a canvas reports as its [width] or [height]
    after a given number was assigned to it. *)
Record LoopHost := {
  geometry_host : Host;
  atlas_host : Atlas.Host;
  canvas_dimension : float → float
}.

Definition set_ui (u : DragOverlay.State) (sc : Scene) : Scene :=
  {| ui := u; charData := charData sc;
     atlasWidth := atlasWidth sc; atlasHeight := atlasHeight sc;
     rowOffsets := rowOffsets sc;
     canvasWidth := canvasWidth sc; canvasHeight := canvasHeight sc;
     dpr := dpr sc; devicePixelRatio := devicePixelRatio sc;
     listening := listening sc;
     buffers := buffers sc; drawCalls := drawCalls sc |}.

Definition set_animationId (a : option N) (u : DragOverlay.State)
    : DragOverlay.State :=
  {| DragOverlay.isVisible := DragOverlay.isVisible u;
     DragOverlay.isDisabled := DragOverlay.isDisabled u;
     DragOverlay.dragEnterCount := DragOverlay.dragEnterCount u;
     DragOverlay.animationId := a;
     DragOverlay.lastTime := DragOverlay.lastTime u;
     DragOverlay.currentPanX := DragOverlay.currentPanX u;
     DragOverlay.currentPanY := DragOverlay.currentPanY u;
     DragOverlay.targetPanX := DragOverlay.targetPanX u;
     DragOverlay.targetPanY := DragOverlay.targetPanY u;
     DragOverlay.mouseX := DragOverlay.mouseX u;
     DragOverlay.mouseY := DragOverlay.mouseY u;
     DragOverlay.canvasActive := DragOverlay.canvasActive u;
     DragOverlay.rafCounter := DragOverlay.rafCounter u;
     DragOverlay.rafPending := DragOverlay.rafPending u;
     DragOverlay.innerWidth := DragOverlay.innerWidth u;
     DragOverlay.innerHeight := DragOverlay.innerHeight u |}.

(** The assignments at the top of [render] once the overlay is known to
    be visible: [lastTime = time] and the two pan steps. *)
Definition advance_pan (time : float) (u : DragOverlay.State)
    : DragOverlay.State :=
  {| DragOverlay.isVisible := DragOverlay.isVisible u;
     DragOverlay.isDisabled := DragOverlay.isDisabled u;
     DragOverlay.dragEnterCount := DragOverlay.dragEnterCount u;
     DragOverlay.animationId := DragOverlay.animationId u;
     DragOverlay.lastTime := time;
     DragOverlay.currentPanX :=
       DragOverlay.currentPanX u
       + (DragOverlay.targetPanX u - DragOverlay.currentPanX u) * LERP_FACTOR;
     DragOverlay.currentPanY :=
       DragOverlay.currentPanY u
       + (DragOverlay.targetPanY u - DragOverlay.currentPanY u) * LERP_FACTOR;
     DragOverlay.targetPanX := DragOverlay.targetPanX u;
     DragOverlay.targetPanY := DragOverlay.targetPanY u;
     DragOverlay.mouseX := DragOverlay.mouseX u;
     DragOverlay.mouseY := DragOverlay.mouseY u;
     DragOverlay.canvasActive := DragOverlay.canvasActive u;
     DragOverlay.rafCounter := DragOverlay.rafCounter u;
     DragOverlay.rafPending := DragOverlay.rafPending u;
     DragOverlay.innerWidth := DragOverlay.innerWidth u;
     DragOverlay.innerHeight := DragOverlay.innerHeight u |}.

(** The browser takes the outstanding requests off its list before it runs
    their callbacks. *)
Definition clear_pending (u : DragOverlay.State) : DragOverlay.State :=
  {| DragOverlay.isVisible := DragOverlay.isVisible u;
     DragOverlay.isDisabled := DragOverlay.isDisabled u;
     DragOverlay.dragEnterCount := DragOverlay.dragEnterCount u;
     DragOverlay.animationId := DragOverlay.animationId u;
     DragOverlay.lastTime := DragOverlay.lastTime u;
     DragOverlay.currentPanX := DragOverlay.currentPanX u;
     DragOverlay.currentPanY := DragOverlay.currentPanY u;
     DragOverlay.targetPanX := DragOverlay.targetPanX u;
     DragOverlay.targetPanY := DragOverlay.targetPanY u;
     DragOverlay.mouseX := DragOverlay.mouseX u;
     DragOverlay.mouseY := DragOverlay.mouseY u;
     DragOverlay.canvasActive := DragOverlay.canvasActive u;
     DragOverlay.rafCounter := DragOverlay.rafCounter u;
     DragOverlay.rafPending := [];
     DragOverlay.innerWidth := DragOverlay.innerWidth u;
     DragOverlay.innerHeight := DragOverlay.innerHeight u |}.

(** The window takes a new size and pixel ratio. *)
Definition set_window (w h : float) (u : DragOverlay.State)
    : DragOverlay.State :=
  {| DragOverlay.isVisible := DragOverlay.isVisible u;
     DragOverlay.isDisabled := DragOverlay.isDisabled u;
     DragOverlay.dragEnterCount := DragOverlay.dragEnterCount u;
     DragOverlay.animationId := DragOverlay.animationId u;
     DragOverlay.lastTime := DragOverlay.lastTime u;
     DragOverlay.currentPanX := DragOverlay.currentPanX u;
     DragOverlay.currentPanY := DragOverlay.currentPanY u;
     DragOverlay.targetPanX := DragOverlay.targetPanX u;
     DragOverlay.targetPanY := DragOverlay.targetPanY u;
     DragOverlay.mouseX := DragOverlay.mouseX u;
     DragOverlay.mouseY := DragOverlay.mouseY u;
     DragOverlay.canvasActive := DragOverlay.canvasActive u;
     DragOverlay.rafCounter := DragOverlay.rafCounter u;
     DragOverlay.rafPending := DragOverlay.rafPending u;
     DragOverlay.innerWidth := w;
     DragOverlay.innerHeight := h |}.

Section WithHost.

Variable host : LoopHost.

(** [resize] *)
Definition resize (sc : Scene) : Scene :=
  let d := if Border.truthy (devicePixelRatio sc) then devicePixelRatio sc
           else 1 in
  {| ui := ui sc; charData := charData sc;
     atlasWidth := atlasWidth sc; atlasHeight := atlasHeight sc;
     rowOffsets := rowOffsets sc;
     canvasWidth := canvas_dimension host (DragOverlay.innerWidth (ui sc) * d);
     canvasHeight := canvas_dimension host (DragOverlay.innerHeight (ui sc) * d);
     dpr := d; devicePixelRatio := devicePixelRatio sc;
     listening := listening sc;
     buffers := buffers sc; drawCalls := drawCalls sc |}.

(** [init]: [resize], [createCharacterAtlas], then the window listeners. *)
Definition init (sc : Scene) : option Scene :=
  let sc1 := resize sc in
  match Atlas.createCharacterAtlas (atlas_host host) TEXT (charData sc1) with
  | None => None
  | Some atlas =>
      Some {| ui := ui sc1; charData := Atlas.charData atlas;
              atlasWidth := Atlas.atlasWidth atlas;
              atlasHeight := Atlas.atlasHeight atlas;
              rowOffsets := rowOffsets sc1;
              canvasWidth := canvasWidth sc1; canvasHeight := canvasHeight sc1;
              dpr := dpr sc1; devicePixelRatio := devicePixelRatio sc1;
              listening := true;
              buffers := buffers sc1; drawCalls := drawCalls sc1 |}
  end.

(** [animationId = requestAnimationFrame(render)] *)
Definition schedule (u : DragOverlay.State) : DragOverlay.State :=
  let '(id, u1) := DragOverlay.requestAnimationFrame u in
  set_animationId (Some id) u1.

(** [render] *)
Definition render (fuel : nat) (time : float) (sc : Scene) : option Scene :=
  if negb (DragOverlay.isVisible (ui sc))
  then Some (set_ui (set_animationId None (ui sc)) sc)
  else
    let u := advance_pan time (ui sc) in
    match buildGeometry (geometry_host host) fuel sc with
    | None => None
    | Some (g, rows) =>
        let drawn := negb (length (Border.positions g) =? 0)%nat in
        Some {| ui := schedule u; charData := charData sc;
                atlasWidth := atlasWidth sc; atlasHeight := atlasHeight sc;
                rowOffsets := rows;
                canvasWidth := canvasWidth sc; canvasHeight := canvasHeight sc;
                dpr := dpr sc; devicePixelRatio := devicePixelRatio sc;
                listening := listening sc;
                buffers := if drawn then g else buffers sc;
                drawCalls := if drawn then S (drawCalls sc) else drawCalls sc |}
    end.

(** What reaches the module. *)
Inductive Event :=
| Init
| Ui (ev : DragOverlay.Event)
| WindowResize (w h ratio : float)
| Frame (time : float).

(** An animation frame: the requests outstanding when it starts are taken
    off the list, oldest first, and [render] runs once for each. *)
Definition frame (fuel : nat) (time : float) (sc : Scene) : option Scene :=
  fold_left
    (λ acc _, match acc with Some sc' => render fuel time sc' | None => None end)
    (rev (DragOverlay.rafPending (ui sc)))
    (Some (set_ui (clear_pending (ui sc)) sc)).

(** The observer is attached when the script loads; the drag and resize
    listeners only once [init] has run. *)
Definition step (fuel : nat) (sc : Scene) (ev : Event) : option Scene :=
  match ev with
  | Init => init sc
  | Ui (DragOverlay.Observed b) => Some (set_ui (DragOverlay.observe b (ui sc)) sc)
  | Ui ev' =>
      if listening sc then Some (set_ui (DragOverlay.step (ui sc) ev') sc)
      else Some sc
  | WindowResize w h ratio =>
      let sc1 :=
        {| ui := set_window w h (ui sc); charData := charData sc;
           atlasWidth := atlasWidth sc; atlasHeight := atlasHeight sc;
           rowOffsets := rowOffsets sc;
           canvasWidth := canvasWidth sc; canvasHeight := canvasHeight sc;
           dpr := dpr sc; devicePixelRatio := ratio;
           listening := listening sc;
           buffers := buffers sc; drawCalls := drawCalls sc |} in
      Some (if listening sc then resize sc1 else sc1)
  | Frame time => frame fuel time sc
  end.

Definition run (fuel : nat) (evs : list Event) (sc : Scene) : option Scene :=
  fold_left
    (λ acc ev, match acc with Some sc' => step fuel sc' ev | None => None end)
    evs (Some sc).

End WithHost.

(** The scene when the script has loaded: a fresh canvas (300 by 150), no
    atlas, no listeners. *)
Definition loaded (w h ratio : float) : Scene :=
  {| ui := DragOverlay.init w h; charData := ∅;
     atlasWidth := 0; atlasHeight := 0; rowOffsets := [];
     canvasWidth := 300; canvasHeight := 150; dpr := 1;
     devicePixelRatio := ratio; listening := false;
     buffers := {| Border.positions := []; Border.texCoords := [] |};
     drawCalls := 0 |}.

(** One render loop at most: the outstanding animation-frame requests are
    exactly the one recorded in [animationId], which exists exactly while
    the overlay is visible and is never 0. *)
Definition single_loop (u : DragOverlay.State) : Prop :=
  DragOverlay.rafPending u
  = match DragOverlay.animationId u with Some id => [id] | None => [] end ∧
  (DragOverlay.isVisible u = true ↔ is_Some (DragOverlay.animationId u)) ∧
  (∀ id, DragOverlay.animationId u = Some id → id ≠ 0%N).

Lemma single_loop_hidden u :
  single_loop u → DragOverlay.isVisible u = false →
  DragOverlay.animationId u = None ∧ DragOverlay.rafPending u = [].
Proof.
  intros (Hp & Hv & _) Hhid.
  destruct (DragOverlay.animationId u) as [id|] eqn:E; [|done].
  assert (DragOverlay.isVisible u = true) by (apply Hv; eauto). congruence.
Qed.

Lemma show_single_loop u : single_loop u → single_loop (DragOverlay.show u).
Proof.
  intros Hu. unfold DragOverlay.show.
  destruct (DragOverlay.isVisible u) eqn:Hv; [done|].
  destruct (single_loop_hidden u Hu Hv) as [Ha Hp].
  destruct (DragOverlay.getPanFromCursor u) as [px py]. simpl.
  repeat split; simpl.
  - by rewrite Hp.
  - eauto.
  - intros id [= <-]. lia.
Qed.

Lemma hide_single_loop u : single_loop u → single_loop (DragOverlay.hide u).
Proof.
  intros (Hp & Hv & Hz). unfold DragOverlay.hide, single_loop. simpl.
  destruct (DragOverlay.animationId u) as [id|] eqn:E; simpl.
  - assert (id ≠ 0%N) as Hid by (by apply Hz).
    apply N.eqb_neq in Hid. rewrite Hid. simpl. rewrite Hp. simpl.
    split.
    { rewrite filter_cons, decide_False by (intros H; by apply H). done. }
    split; [|done]. split; [done|]. by intros [? ?].
  - split; [done|]. split; [|done]. split; [done|]. by intros [? ?].
Qed.

Lemma ui_step_single_loop u ev :
  single_loop u → single_loop (DragOverlay.step u ev).
Proof.
  intros Hu. destruct ev as [e| |e| |b]; simpl.
  - unfold DragOverlay.handleDragEnter.
    destruct (DragOverlay.isDisabled u); [done|]. simpl.
    destruct (_ =? 1)%Z; [|done]. by apply show_single_loop.
  - unfold DragOverlay.handleDragLeave. simpl.
    destruct (_ =? 0)%Z; [|done]. by apply hide_single_loop.
  - done.
  - by apply hide_single_loop.
  - unfold DragOverlay.observe, DragOverlay.disable, DragOverlay.enable.
    destruct b, (DragOverlay.isDisabled u); simpl; try done.
    by apply hide_single_loop.
Qed.

Lemma frame_single_loop host fuel time sc sc' :
  single_loop (ui sc) → frame host fuel time sc = Some sc' →
  single_loop (ui sc').
Proof.
  intros Hu Hrun. unfold frame in Hrun.
  destruct (DragOverlay.isVisible (ui sc)) eqn:Hv.
  - destruct Hu as (Hp & Hvis & Hz).
    destruct (proj1 Hvis Hv) as [id Hid]. rewrite Hid in Hp.
    rewrite Hp in Hrun. simpl in Hrun. unfold render in Hrun. simpl in Hrun.
    rewrite Hv in Hrun. simpl in Hrun.
    destruct (buildGeometry _ fuel _) as [[g rows]|]; [|done].
    injection Hrun as <-. simpl.
    repeat split; simpl; eauto. intros id' [= <-]. lia.
  - destruct (single_loop_hidden _ Hu Hv) as [Ha Hp].
    rewrite Hp in Hrun. simpl in Hrun. injection Hrun as <-. simpl.
    destruct Hu as (_ & Hvis & Hz). repeat split; simpl; try done.
    + by rewrite Ha.
    + apply Hvis.
    + apply Hvis.
Qed.

Lemma step_single_loop host fuel sc ev sc' :
  single_loop (ui sc) → step host fuel sc ev = Some sc' →
  single_loop (ui sc').
Proof.
  intros Hu Hrun. destruct ev as [|ev|w h ratio|time]; simpl in Hrun.
  - unfold init in Hrun. destruct (Atlas.createCharacterAtlas _ _ _); [|done].
    by injection Hrun as <-.
  - destruct ev as [e| |e| |b]; simpl in Hrun.
    5: { injection Hrun as <-.
         by apply (ui_step_single_loop (ui sc) (DragOverlay.Observed b)). }
    all: destruct (listening sc); injection Hrun as <-; [|done].
    + by apply (ui_step_single_loop (ui sc) (DragOverlay.DragEnter e)).
    + by apply (ui_step_single_loop (ui sc) DragOverlay.DragLeave).
    + by apply (ui_step_single_loop (ui sc) (DragOverlay.DragOver e)).
    + by apply (ui_step_single_loop (ui sc) DragOverlay.Drop).
  - injection Hrun as <-. by destruct (listening sc).
  - by apply (frame_single_loop host fuel time sc).
Qed.

Lemma run_single_loop host fuel evs : ∀ sc0 sc,
  single_loop (ui sc0) → run host fuel evs sc0 = Some sc → single_loop (ui sc).
Proof.
  unfold run. induction evs as [|ev evs IH]; intros sc0 sc H0 Hrun; simpl in Hrun.
  - by injection Hrun as <-.
  - destruct (step host fuel sc0 ev) as [sc1|] eqn:Hstep.
    + exact (IH sc1 sc (step_single_loop host fuel sc0 ev sc1 H0 Hstep) Hrun).
    + exfalso. clear -Hrun. induction evs as [|e evs IH]; [done|]. by apply IH.
Qed.

Lemma loaded_single_loop w h ratio : single_loop (ui (loaded w h ratio)).
Proof. split; [done|]. split; [|done]. split; [done|]. by intros [? ?]. Qed.

(** From the moment the script has loaded, through any events and frames:
    the animation-frame requests outstanding are exactly the one recorded
    in [animationId]; there is one while the overlay is visible and none
    while it is hidden, so [hide] always stops the render loop and [show]
    never starts a second one. *)
Theorem overlay_single_render_loop (host : LoopHost) (fuel : nat)
    (w h ratio : float) (evs : list Event) (sc : Scene) :
  run host fuel evs (loaded w h ratio) = Some sc →
  DragOverlay.rafPending (ui sc)
  = match DragOverlay.animationId (ui sc) with Some id => [id] | None => [] end ∧
  (DragOverlay.isVisible (ui sc) = true ↔ is_Some (DragOverlay.animationId (ui sc))).
Proof.
  intros Hrun.
  by destruct (run_single_loop host fuel evs _ _ (loaded_single_loop w h ratio) Hrun)
    as (Hp & Hv & _).
Qed.

(** While the overlay is hidden an animation frame finds nothing to run:
    it returns whatever the fuel, draws nothing, leaves the buffers and the
    row offsets alone and requests no further frame. *)
Theorem overlay_hidden_frame_idle (host : LoopHost) (fuel fuel' : nat)
    (w h ratio time : float) (evs : list Event) (sc : Scene) :
  run host fuel evs (loaded w h ratio) = Some sc →
  DragOverlay.isVisible (ui sc) = false →
  ∃ sc', frame host fuel' time sc = Some sc' ∧
         drawCalls sc' = drawCalls sc ∧ buffers sc' = buffers sc ∧
         rowOffsets sc' = rowOffsets sc ∧
         DragOverlay.rafPending (ui sc') = [] ∧
         DragOverlay.rafCounter (ui sc') = DragOverlay.rafCounter (ui sc).
Proof.
  intros Hrun Hhid.
  pose proof (run_single_loop host fuel evs _ _ (loaded_single_loop w h ratio) Hrun)
    as Hloop.
  destruct (single_loop_hidden _ Hloop Hhid) as [_ Hp].
  unfold frame. rewrite Hp. simpl. eauto 10.
Qed.

(** *** A host to run the loop on *)

Definition float_of_Z (z : Z) : float :=
  match z with
  | Z0 => 0
  | Zpos _ => PrimFloat.of_uint63 (Uint63Axioms.of_Z z)
  | Zneg p => - PrimFloat.of_uint63 (Uint63Axioms.of_Z (Zpos p))
  end.

(** The integer a number is, if it is one. *)
Definition Z_of_float (x : float) : option Z :=
  match Prim2SF x with
  | S754_zero _ => Some 0%Z
  | S754_finite s m e =>
      let mag :=
        if (0 <=? e)%Z then Some (Zpos m * 2 ^ e)%Z
        else if (Zpos m mod 2 ^ (- e) =? 0)%Z then Some (Zpos m / 2 ^ (- e))%Z
        else None in
      (λ v, if s then (- v)%Z else v) <$> mag
  | _ => None
  end.

(** [Math.log2], exact on powers of two and in between within 0.09 of the
    logarithm, on the same side of every integer. *)
Definition log2_64 (x : float) : float :=
  if 0 <? x then
    if x =? infinity then x
    else let '(m, e) := Z.frexp x in float_of_Z (e - 1) + (2 * m - 1)
  else if x =? 0 then neg_infinity else nan.

(** [Math.pow] for integer exponents. *)
Definition pow64 (b y : float) : float :=
  match Z_of_float y with
  | Some n =>
      if b =? 2 then Z.ldexp 1 n
      else
        let p := Nat.iter (Z.to_nat (Z.abs n)) (λ a, a * b) 1 in
        if (n <? 0)%Z then 1 / p else p
  | None => nan
  end.

Definition sample_atlas_host : Atlas.Host :=
  {| Atlas.measureText := λ _, 8.5; Atlas.Math_ceil := ceil64;
     Atlas.Math_log2 := log2_64; Atlas.Math_pow := pow64 |}.

Definition sample_loop_host : LoopHost :=
  {| geometry_host := sample_host; atlas_host := sample_atlas_host;
     canvas_dimension := Border.floor64 |}.

(** A drag over a 40 by 20 window: start-up, enter, three frames with a
    move in between, the report frame opening and closing, a drop. *)
Definition sample_session : list Event :=
  [ Init;
    Ui (DragOverlay.DragEnter {| DragOverlay.clientX := 10; DragOverlay.clientY := 5 |});
    Frame 16; Frame 33;
    Ui (DragOverlay.DragOver {| DragOverlay.clientX := 30; DragOverlay.clientY := 15 |});
    Frame 50;
    Ui (DragOverlay.Observed true);
    Frame 66;
    Ui (DragOverlay.Observed false);
    Ui DragOverlay.Drop ].

Example overlay_session_start :
  (λ sc, (atlasWidth sc, atlasHeight sc, canvasWidth sc, rendered sc,
          listening sc))
    <$> run sample_loop_host 8 [Init] (loaded 40 20 1)
  = Some (128, 32, 40, 5%nat, true).
Proof. vm_compute. reflexivity. Qed.

Example overlay_session_end :
  (λ sc, (drawCalls sc, length (rowOffsets sc),
          DragOverlay.rafPending (ui sc), DragOverlay.rafCounter (ui sc)))
    <$> run sample_loop_host 8 sample_session (loaded 40 20 1)
  = Some (3%nat, 8%nat, [], 4%N).
Proof. vm_compute. reflexivity. Qed.

(** The render-loop invariant at the end of the sample session. *)
Lemma overlay_single_render_loop_witness :
  ∃ sc,
    run sample_loop_host 8 sample_session (loaded 40 20 1) = Some sc ∧
    DragOverlay.rafPending (ui sc)
    = match DragOverlay.animationId (ui sc) with Some id => [id] | None => [] end ∧
    (DragOverlay.isVisible (ui sc) = true
     ↔ is_Some (DragOverlay.animationId (ui sc))).
Proof.
  eexists. split; [vm_compute; reflexivity|].
  apply (overlay_single_render_loop sample_loop_host 8 40 20 1 sample_session).
  vm_compute. reflexivity.
Defined.

(** After the drop that ends the sample session the overlay is hidden,
    and a frame with no fuel at all returns. *)
Lemma overlay_hidden_frame_idle_witness :
  ∃ sc,
    run sample_loop_host 8 sample_session (loaded 40 20 1) = Some sc ∧
    DragOverlay.isVisible (ui sc) = false ∧
    ∃ sc', frame sample_loop_host 0 83 sc = Some sc' ∧
           drawCalls sc' = drawCalls sc ∧ buffers sc' = buffers sc ∧
           rowOffsets sc' = rowOffsets sc ∧
           DragOverlay.rafPending (ui sc') = [] ∧
           DragOverlay.rafCounter (ui sc') = DragOverlay.rafCounter (ui sc).
Proof.
  eexists. split; [vm_compute; reflexivity|]. split; [reflexivity|].
  apply (overlay_hidden_frame_idle sample_loop_host 8 0 40 20 1 83 sample_session).
  - vm_compute. reflexivity.
  - reflexivity.
Defined.

End OverlayLoop.

(** ** The animated border: start-up, frames, pause and resume *)

Module BorderLoop.

Local Open Scope float_scope.

(** The host of the whole module: the built-ins of the geometry, those of
    the atlas, and the number a canvas reports as its [width] or [height]
    after a given number was assigned to it. *)
Record LoopHost := {
  geometry_host : Border.Host;
  atlas_host : Atlas.Host;
  canvas_dimension : float → float
}.

(** The module-level bindings of [border.js], what [window] reports, the
    canvas, the animation-frame requests that are outstanding, and what has
    been handed to WebGL. *)
Record Anim := {
  geo : Border.State;
  atlasWidth : float;
  atlasHeight : float;
  canvasWidth : float;
  canvasHeight : float;
  displayNone : bool;
  innerWidth : float;
  innerHeight : float;
  devicePixelRatio : float;
  offset : float;
  lastTime : float;
  isPaused : bool;
  rafCounter : N;
  rafPending : list N;
  buffers : Border.Geometry;
  drawCalls : nat
}.

(** [requestAnimationFrame(render)]; the module keeps no identifier. *)
Definition requestAnimationFrame (a : Anim) : Anim :=
  let id := (rafCounter a + 1)%N in
  {| geo := geo a; atlasWidth := atlasWidth a; atlasHeight := atlasHeight a;
     canvasWidth := canvasWidth a; canvasHeight := canvasHeight a;
     displayNone := displayNone a;
     innerWidth := innerWidth a; innerHeight := innerHeight a;
     devicePixelRatio := devicePixelRatio a;
     offset := offset a; lastTime := lastTime a; isPaused := isPaused a;
     rafCounter := id; rafPending := id :: rafPending a;
     buffers := buffers a; drawCalls := drawCalls a |}.

(** [pause] *)
Definition pause (a : Anim) : Anim :=
  if isPaused a then a
  else
    {| geo := geo a; atlasWidth := atlasWidth a; atlasHeight := atlasHeight a;
       canvasWidth := canvasWidth a; canvasHeight := canvasHeight a;
       displayNone := true;
       innerWidth := innerWidth a; innerHeight := innerHeight a;
       devicePixelRatio := devicePixelRatio a;
       offset := offset a; lastTime := lastTime a; isPaused := true;
       rafCounter := rafCounter a; rafPending := rafPending a;
       buffers := buffers a; drawCalls := drawCalls a |}.

(** [resume] *)
Definition resume (a : Anim) : Anim :=
  if negb (isPaused a) then a
  else
    requestAnimationFrame
      {| geo := geo a; atlasWidth := atlasWidth a; atlasHeight := atlasHeight a;
         canvasWidth := canvasWidth a; canvasHeight := canvasHeight a;
         displayNone := false;
         innerWidth := innerWidth a; innerHeight := innerHeight a;
         devicePixelRatio := devicePixelRatio a;
         offset := offset a; lastTime := 0; isPaused := false;
         rafCounter := rafCounter a; rafPending := rafPending a;
         buffers := buffers a; drawCalls := drawCalls a |}.

(** The mutation-observer callback. *)
Definition observe (reportActive : bool) (a : Anim) : Anim :=
  if reportActive then pause a
  else if isPaused a then resume a else a.

Section WithHost.

Variable host : LoopHost.

(** [resize], with the [calculatePath] it ends in. *)
Definition resize (a : Anim) : Anim :=
  let d := if Border.truthy (devicePixelRatio a) then devicePixelRatio a
           else 1 in
  let w := canvas_dimension host (innerWidth a * d) in
  let h := canvas_dimension host (innerHeight a * d) in
  let '(segs, total) := Border.calculatePath w h d in
  {| geo := {| Border.charData := Border.charData (geo a);
               Border.pathSegments := segs;
               Border.totalPathLength := total;
               Border.dpr := d |};
     atlasWidth := atlasWidth a; atlasHeight := atlasHeight a;
     canvasWidth := w; canvasHeight := h;
     displayNone := displayNone a;
     innerWidth := innerWidth a; innerHeight := innerHeight a;
     devicePixelRatio := devicePixelRatio a;
     offset := offset a; lastTime := lastTime a; isPaused := isPaused a;
     rafCounter := rafCounter a; rafPending := rafPending a;
     buffers := buffers a; drawCalls := drawCalls a |}.

(** [init]: [resize], [createCharacterAtlas], the first frame request. *)
Definition init (a : Anim) : option Anim :=
  let a1 := resize a in
  match Atlas.createCharacterAtlas (atlas_host host) Border.TEXT
          (Border.charData (geo a1)) with
  | None => None
  | Some atlas =>
      Some (requestAnimationFrame
        {| geo := {| Border.charData := Atlas.charData atlas;
                     Border.pathSegments := Border.pathSegments (geo a1);
                     Border.totalPathLength := Border.totalPathLength (geo a1);
                     Border.dpr := Border.dpr (geo a1) |};
           atlasWidth := Atlas.atlasWidth atlas;
           atlasHeight := Atlas.atlasHeight atlas;
           canvasWidth := canvasWidth a1; canvasHeight := canvasHeight a1;
           displayNone := displayNone a1;
           innerWidth := innerWidth a1; innerHeight := innerHeight a1;
           devicePixelRatio := devicePixelRatio a1;
           offset := offset a1; lastTime := lastTime a1;
           isPaused := isPaused a1;
           rafCounter := rafCounter a1; rafPending := rafPending a1;
           buffers := buffers a1; drawCalls := drawCalls a1 |})
  end.

(** The offset after a frame at [time]. *)
Definition next_offset (time : float) (a : Anim) : float :=
  let total := Border.totalPathLength (geo a) in
  let deltaTime :=
    if Border.truthy (lastTime a) then (time - lastTime a) / 1000 else 0 in
  let o1 := offset a - Border.ANIMATION_SPEED * Border.dpr (geo a) * deltaTime in
  let o2 := if o1 <? 0 then o1 + total else o1 in
  if total <? o2 then o2 - total else o2.

(** [render] *)
Definition render (fuel : nat) (time : float) (a : Anim) : option Anim :=
  if isPaused a then Some a
  else
    let o := next_offset time a in
    match Border.buildGeometry (geometry_host host) fuel (geo a) o with
    | None => None
    | Some g =>
        let drawn := negb (length (Border.positions g) =? 0)%nat in
        Some (requestAnimationFrame
          {| geo := geo a;
             atlasWidth := atlasWidth a; atlasHeight := atlasHeight a;
             canvasWidth := canvasWidth a; canvasHeight := canvasHeight a;
             displayNone := displayNone a;
             innerWidth := innerWidth a; innerHeight := innerHeight a;
             devicePixelRatio := devicePixelRatio a;
             offset := o; lastTime := time; isPaused := isPaused a;
             rafCounter := rafCounter a; rafPending := rafPending a;
             buffers := if drawn then g else buffers a;
             drawCalls := if drawn then S (drawCalls a) else drawCalls a |})
    end.

Definition clear_pending (a : Anim) : Anim :=
  {| geo := geo a; atlasWidth := atlasWidth a; atlasHeight := atlasHeight a;
     canvasWidth := canvasWidth a; canvasHeight := canvasHeight a;
     displayNone := displayNone a;
     innerWidth := innerWidth a; innerHeight := innerHeight a;
     devicePixelRatio := devicePixelRatio a;
     offset := offset a; lastTime := lastTime a; isPaused := isPaused a;
     rafCounter := rafCounter a; rafPending := [];
     buffers := buffers a; drawCalls := drawCalls a |}.

(** The callbacks of one animation frame, [n] of them. *)
Fixpoint run_callbacks (fuel : nat) (time : float) (n : nat) (a : Anim)
    : option Anim :=
  match n with
  | O => Some a
  | S n' =>
      match render fuel time a with
      | None => None
      | Some a' => run_callbacks fuel time n' a'
      end
  end.

(** An animation frame: the requests outstanding when it starts are taken
    off the list and [render] runs once for each. *)
Definition frame (fuel : nat) (time : float) (a : Anim) : option Anim :=
  run_callbacks fuel time (length (rafPending a)) (clear_pending a).

(** What reaches the module. *)
Inductive Event :=
| Init
| Observed (reportActive : bool)
| WindowResize (w h ratio : float)
| Frame (time : float).

Definition set_window (w h ratio : float) (a : Anim) : Anim :=
  {| geo := geo a; atlasWidth := atlasWidth a; atlasHeight := atlasHeight a;
     canvasWidth := canvasWidth a; canvasHeight := canvasHeight a;
     displayNone := displayNone a;
     innerWidth := w; innerHeight := h; devicePixelRatio := ratio;
     offset := offset a; lastTime := lastTime a; isPaused := isPaused a;
     rafCounter := rafCounter a; rafPending := rafPending a;
     buffers := buffers a; drawCalls := drawCalls a |}.

(** The resize listener and the observer are attached when the script
    loads. *)
Definition step (fuel : nat) (a : Anim) (ev : Event) : option Anim :=
  match ev with
  | Init => init a
  | Observed b => Some (observe b a)
  | WindowResize w h ratio => Some (resize (set_window w h ratio a))
  | Frame time => frame fuel time a
  end.

Definition run (fuel : nat) (evs : list Event) (a : Anim) : option Anim :=
  fold_left
    (λ acc ev, match acc with Some a' => step fuel a' ev | None => None end)
    evs (Some a).

End WithHost.

(** The module when the script has loaded: a fresh canvas, no atlas, no
    path, nothing requested. *)
Definition loaded (w h ratio : float) : Anim :=
  {| geo := {| Border.charData := ∅; Border.pathSegments := [];
               Border.totalPathLength := 0; Border.dpr := 1 |};
     atlasWidth := 0; atlasHeight := 0;
     canvasWidth := 300; canvasHeight := 150; displayNone := false;
     innerWidth := w; innerHeight := h; devicePixelRatio := ratio;
     offset := 0; lastTime := 0; isPaused := false;
     rafCounter := 0; rafPending := [];
     buffers := {| Border.positions := []; Border.texCoords := [] |};
     drawCalls := 0 |}.

Lemma run_app host fuel evs1 evs2 a :
  run host fuel (evs1 ++ evs2) a
  = match run host fuel evs1 a with
    | Some a1 => run host fuel evs2 a1
    | None => None
    end.
Proof.
  unfold run. rewrite fold_left_app.
  destruct (fold_left _ evs1 (Some a)) as [a1|]; [done|].
  induction evs2 as [|e evs2 IH]; [done|]. exact IH.
Qed.

Lemma run_cons host fuel ev evs a :
  run host fuel (ev :: evs) a
  = match step host fuel a ev with
    | Some a1 => run host fuel evs a1
    | None => None
    end.
Proof.
  unfold run. simpl. destruct (step host fuel a ev) as [a1|]; [done|].
  induction evs as [|e evs IH]; [done|]. exact IH.
Qed.

(** A property that [init] establishes and every event keeps holds from
    [init] on. *)
Lemma run_after_init host fuel (P : Anim → Prop) :
  (∀ a a', init host a = Some a' → P a') →
  (∀ a ev a', P a → step host fuel a ev = Some a' → P a') →
  ∀ before after a0 a,
    run host fuel (before ++ Init :: after) a0 = Some a → P a.
Proof.
  intros Hinit Hstep before after a0 a Hrun.
  rewrite run_app in Hrun.
  destruct (run host fuel before a0) as [a1|]; [|done].
  rewrite run_cons in Hrun. cbn [step] in Hrun.
  destruct (init host a1) as [a2|] eqn:Hi; [|discriminate].
  apply Hinit in Hi. clear -Hi Hstep Hrun.
  revert a2 Hi Hrun. induction after as [|ev after IH]; intros a2 Hi Hrun.
  - by injection Hrun as <-.
  - rewrite run_cons in Hrun.
    destruct (step host fuel a2 ev) as [a3|] eqn:Hs; [|done].
    exact (IH a3 (Hstep _ _ _ Hi Hs) Hrun).
Qed.

Lemma render_unpaused host fuel time a a' :
  isPaused a = false → render host fuel time a = Some a' →
  isPaused a' = false ∧ rafPending a' = (rafCounter a + 1)%N :: rafPending a ∧
  Border.charData (geo a') = Border.charData (geo a).
Proof.
  intros Hp Hrun. unfold render in Hrun. rewrite Hp in Hrun.
  destruct (Border.buildGeometry _ fuel _ _); [|done].
  by injection Hrun as <-.
Qed.

Lemma callbacks_paused host fuel time n a :
  isPaused a = true → run_callbacks host fuel time n a = Some a.
Proof.
  intros Hp. induction n as [|n IH]; [done|].
  simpl. unfold render. by rewrite Hp.
Qed.

Lemma callbacks_unpaused host fuel time n : ∀ a a',
  isPaused a = false → run_callbacks host fuel time n a = Some a' →
  isPaused a' = false ∧
  length (rafPending a') = (length (rafPending a) + n)%nat ∧
  Border.charData (geo a') = Border.charData (geo a).
Proof.
  induction n as [|n IH]; intros a a' Hp Hrun; simpl in Hrun.
  - injection Hrun as <-. by rewrite Nat.add_0_r.
  - destruct (render host fuel time a) as [a1|] eqn:Hr; [|done].
    destruct (render_unpaused _ _ _ _ _ Hp Hr) as (Hp1 & Hq1 & Hc1).
    destruct (IH a1 a' Hp1 Hrun) as (Hp' & Hq' & Hc').
    split; [done|]. split; [|congruence].
    rewrite Hq', Hq1. simpl. lia.
Qed.

(** While the animation is not paused a frame hands every render loop on:
    as many requests are outstanding after it as before. *)
Lemma frame_unpaused host fuel time a a' :
  isPaused a = false → frame host fuel time a = Some a' →
  isPaused a' = false ∧ length (rafPending a') = length (rafPending a).
Proof.
  intros Hp Hrun. unfold frame in Hrun.
  destruct (callbacks_unpaused host fuel time _ (clear_pending a) a' Hp Hrun)
    as (Hp' & Hq' & _).
  split; [done|]. by rewrite Hq'.
Qed.

Lemma frame_charData host fuel time a a' :
  frame host fuel time a = Some a' →
  Border.charData (geo a') = Border.charData (geo a).
Proof.
  intros Hrun. unfold frame in Hrun. destruct (isPaused a) eqn:Hp.
  - rewrite callbacks_paused in Hrun by done. by injection Hrun as <-.
  - by destruct (callbacks_unpaused host fuel time _ (clear_pending a) a' Hp Hrun)
      as (_ & _ & ->).
Qed.

Definition alive (a : Anim) : Prop := isPaused a = false → rafPending a ≠ [].

Lemma step_alive host fuel a ev a' :
  alive a → step host fuel a ev = Some a' → alive a'.
Proof.
  intros Ha Hrun. destruct ev as [|b|w h ratio|time]; cbn [step] in Hrun.
  - unfold init in Hrun. destruct (Atlas.createCharacterAtlas _ _ _); [|done].
    injection Hrun as <-. intros _. unfold requestAnimationFrame.
    cbn [rafPending]. discriminate.
  - injection Hrun as <-. unfold observe, pause, resume.
    destruct b, (isPaused a) eqn:Hp; simpl; try done; by intros ?.
  - injection Hrun as <-. unfold resize, alive in *.
    destruct (Border.calculatePath _ _ _). exact Ha.
  - destruct (isPaused a) eqn:Hp.
    + unfold frame in Hrun. rewrite callbacks_paused in Hrun by done.
      injection Hrun as <-. intros H. simpl in H. congruence.
    + destruct (frame_unpaused _ _ _ _ _ Hp Hrun) as [_ Hlen].
      intros _ E. rewrite E in Hlen. simpl in Hlen.
      unfold alive in Ha. specialize (Ha Hp).
      by destruct (rafPending a).
Qed.

Definition atlas_complete (a : Anim) : Prop :=
  ∀ c, c ∈ Border.TEXT → is_Some (Border.charData (geo a) !! c).

Lemma init_atlas_complete host a a' : init host a = Some a' → atlas_complete a'.
Proof.
  intros Hrun c Hc. unfold init in Hrun.
  destruct (Atlas.createCharacterAtlas_cells (atlas_host host) Border.TEXT
              (Border.charData (geo (resize host a))))
    as (atlas & Hat & Hin & _).
  rewrite Hat in Hrun. injection Hrun as <-.
  apply (Atlas.elem_of_uniqueChars Border.TEXT) in Hc.
  apply list_elem_of_lookup in Hc as [i Hi].
  unfold requestAnimationFrame. cbn [geo Border.charData].
  rewrite (Hin i c Hi). eauto.
Qed.

Lemma step_atlas_complete host fuel a ev a' :
  atlas_complete a → step host fuel a ev = Some a' → atlas_complete a'.
Proof.
  intros Ha Hrun. destruct ev as [|b|w h ratio|time]; cbn [step] in Hrun.
  - by apply (init_atlas_complete host a).
  - injection Hrun as <-. unfold observe, pause, resume.
    by destruct b, (isPaused a).
  - injection Hrun as <-. unfold resize, atlas_complete in *.
    destruct (Border.calculatePath _ _ _). exact Ha.
  - unfold atlas_complete. by rewrite (frame_charData _ _ _ _ _ Hrun).
Qed.

(** Once [init] has run, the animation cannot stall: after any further
    events and frames, unless it is paused, at least one animation-frame
    request is outstanding. *)
Theorem border_loop_alive (host : LoopHost) (fuel : nat)
    (before after : list Event) (a0 a : Anim) :
  run host fuel (before ++ Init :: after) a0 = Some a →
  isPaused a = false → rafPending a ≠ [].
Proof.
  apply (run_after_init host fuel alive).
  - intros a1 a2 Hi. unfold init in Hi.
    destruct (Atlas.createCharacterAtlas _ _ _); [|done].
    injection Hi as <-. intros _. unfold requestAnimationFrame.
    cbn [rafPending]. discriminate.
  - apply step_alive.
Qed.

(** Frames do not stop a render loop while the animation is not paused,
    and [pause] cancels nothing; so a [pause] that is followed by [resume]
    before the next frame leaves one more loop running than before, however
    many frames follow. *)
Theorem border_pause_resume_adds_loop (host : LoopHost) (fuel : nat)
    (times : list float) (a a' : Anim) :
  isPaused a = false →
  run host fuel (Observed true :: Observed false :: map Frame times) a = Some a' →
  isPaused a' = false ∧ length (rafPending a') = S (length (rafPending a)).
Proof.
  intros Hp Hrun. rewrite run_cons in Hrun. cbn [step] in Hrun.
  rewrite run_cons in Hrun. cbn [step] in Hrun.
  assert (Hb : isPaused (observe false (observe true a)) = false ∧
               length (rafPending (observe false (observe true a)))
               = S (length (rafPending a))).
  { unfold observe, pause, resume. rewrite Hp. done. }
  revert Hb Hrun. generalize (observe false (observe true a)). clear Hp.
  induction times as [|t times IH]; intros b [Hp Hlen] Hrun.
  - by injection Hrun as <-.
  - cbn [map] in Hrun. rewrite run_cons in Hrun. cbn [step] in Hrun.
    destruct (frame host fuel t b) as [b'|] eqn:Hf; [|done].
    destruct (frame_unpaused _ _ _ _ _ Hp Hf) as [Hp' Hlen'].
    apply (IH b'); [|done]. split; [done|]. congruence.
Qed.

(** Once [init] has run, every character of [TEXT] has an atlas entry, and
    it keeps one through every later event: [buildGeometry] draws all 19
    characters in every repetition and never takes its skip branch. *)
Theorem border_atlas_complete (host : LoopHost) (fuel : nat)
    (before after : list Event) (a0 a : Anim) :
  run host fuel (before ++ Init :: after) a0 = Some a →
  Border.rendered (geo a) = 19%nat.
Proof.
  intros Hrun.
  assert (Hc : atlas_complete a).
  { revert Hrun. apply (run_after_init host fuel atlas_complete).
    - apply init_atlas_complete.
    - apply step_atlas_complete. }
  unfold Border.rendered.
  replace (filter (λ c, is_Some (Border.charData (geo a) !! c)) Border.TEXT)
    with Border.TEXT; [done|].
  symmetry. revert Hc. unfold atlas_complete.
  generalize Border.TEXT. intros l. induction l as [|c l IH]; intros Hc; [done|].
  rewrite filter_cons, decide_True by (apply Hc; by left).
  f_equal. apply IH. intros c' Hc'. apply Hc. by right.
Qed.

(** [pause] takes effect at the next animation frame: every render loop
    ends there, whatever the fuel, without drawing, without moving the
    offset and without requesting another frame. *)
Theorem border_paused_frame_drains (host : LoopHost) (fuel : nat)
    (time : float) (a : Anim) :
  isPaused a = true →
  ∃ a', frame host fuel time a = Some a' ∧
        rafPending a' = [] ∧ isPaused a' = true ∧
        drawCalls a' = drawCalls a ∧ offset a' = offset a ∧
        lastTime a' = lastTime a.
Proof.
  intros Hp. unfold frame.
  rewrite callbacks_paused by done. eauto 10.
Qed.

(** *** A host and a session to run the border on *)

Definition sample_loop_host : LoopHost :=
  {| geometry_host := Border.sample_host;
     atlas_host := OverlayLoop.sample_atlas_host;
     canvas_dimension := Border.floor64 |}.

(** A 400 by 300 window: the window is sized, [init] runs, two frames, the
    report frame opens, a frame, it closes, a frame. *)
Definition sample_session : list Event :=
  [ Frame 16; Frame 33; Observed true; Frame 50; Observed false; Frame 66 ].

Example border_session_end :
  (λ a, (drawCalls a, rafPending a, offset a, Border.rendered (geo a),
         Border.repetitions (geometry_host sample_loop_host) (geo a)))
    <$> run sample_loop_host 8
          ([WindowResize 400 300 1] ++ Init :: sample_session) (loaded 0 0 1)
  = Some (3%nat, [5%N], 0x1.3c39f36cb172bp+10, 19%nat, 5).
Proof. vm_compute. reflexivity. Qed.

Lemma border_loop_alive_witness :
  ∃ a,
    run sample_loop_host 8
      ([WindowResize 400 300 1] ++ Init :: sample_session) (loaded 0 0 1)
    = Some a ∧
    isPaused a = false ∧ rafPending a ≠ [].
Proof.
  eexists. split; [vm_compute; reflexivity|]. split; [reflexivity|].
  apply (border_loop_alive sample_loop_host 8
           [WindowResize 400 300 1] sample_session (loaded 0 0 1)).
  - vm_compute. reflexivity.
  - reflexivity.
Defined.

Lemma border_atlas_complete_witness :
  ∃ a,
    run sample_loop_host 8
      ([WindowResize 400 300 1] ++ Init :: sample_session) (loaded 0 0 1)
    = Some a ∧
    Border.rendered (geo a) = 19%nat.
Proof.
  eexists. split; [vm_compute; reflexivity|].
  apply (border_atlas_complete sample_loop_host 8
           [WindowResize 400 300 1] sample_session (loaded 0 0 1)).
  vm_compute. reflexivity.
Defined.

(** One loop after [init]; two after the report frame has opened and
    closed between two frames, and still two three frames later. *)
Lemma border_pause_resume_adds_loop_witness :
  ∃ a a',
    run sample_loop_host 8 [WindowResize 400 300 1; Init; Frame 16]
        (loaded 0 0 1) = Some a ∧
    isPaused a = false ∧ length (rafPending a) = 1%nat ∧
    run sample_loop_host 8
        (Observed true :: Observed false :: map Frame [33; 50; 66]) a
    = Some a' ∧
    isPaused a' = false ∧ length (rafPending a') = S (length (rafPending a)).
Proof.
  eexists _, _. split; [vm_compute; reflexivity|].
  split; [reflexivity|]. split; [reflexivity|].
  split; [vm_compute; reflexivity|].
  apply (border_pause_resume_adds_loop sample_loop_host 8 [33; 50; 66]).
  - reflexivity.
  - vm_compute. reflexivity.
Defined.

(** Two loops are running when the report frame opens; the next frame
    ends both. *)
Lemma border_paused_frame_drains_witness :
  ∃ a,
    run sample_loop_host 8
        [WindowResize 400 300 1; Init; Observed true; Observed false;
         Frame 16; Observed true] (loaded 0 0 1) = Some a ∧
    isPaused a = true ∧ length (rafPending a) = 2%nat ∧
    ∃ a', frame sample_loop_host 0 33 a = Some a' ∧
          rafPending a' = [] ∧ isPaused a' = true ∧
          drawCalls a' = drawCalls a ∧ offset a' = offset a ∧
          lastTime a' = lastTime a.
Proof.
  eexists. split; [vm_compute; reflexivity|].
  split; [reflexivity|]. split; [reflexivity|].
  apply (border_paused_frame_drains sample_loop_host 0 33). reflexivity.
Defined.

End BorderLoop.

(** ** The border's geometry: texture coordinates and path fallback *)

Module BorderFacts.

Import Border.

Local Open Scope float_scope.








(** A number is NaN exactly when it differs from itself; NaN is below or
    equal to nothing. *)
Lemma nan_not_leb (x y : float) : (x =? x) = false → (x <=? y) = false.
Proof.
  rewrite FloatAxioms.eqb_spec, FloatAxioms.leb_spec. intros Hx.
  assert (Prim2SF x = S754_nan) as ->; [|done].
  destruct (Prim2SF x) as [s|s| |s m e]; try done.
  - by destruct s.
  - unfold SFeqb, SFcompare in Hx.
    rewrite Z.compare_refl, Pos.compare_cont_refl in Hx. by destruct s.
Qed.

Lemma walk_path_nan host segs : ∀ accumulated distance,
  (distance =? distance) = false →
  walk_path host segs accumulated distance
  = {| pt_x := 0; pt_y := 0; pt_angle := 0 |}.
Proof.
  induction segs as [|seg segs IH]; intros acc d Hd; [done|].
  simpl. rewrite (nan_not_leb d _ Hd). by apply IH.
Qed.

(** [getPointOnPath] answers the point (0, 0) at angle 0 whenever the
    distance, once wrapped into the path by the two [%], is NaN (as [%]
    gives for a path of length 0 or a NaN distance) and whenever the path
    has no segments: no segment is ever chosen, and nothing is divided. *)
Theorem getPointOnPath_fallback (host : Host) (st : State) (distance : float) :
  (let d := rem host (rem host distance (totalPathLength st)
                      + totalPathLength st) (totalPathLength st) in
   (d =? d) = false) ∨ pathSegments st = [] →
  getPointOnPath host st distance = {| pt_x := 0; pt_y := 0; pt_angle := 0 |}.
Proof.
  intros [Hd| Hs]; unfold getPointOnPath.
  - by apply walk_path_nan.
  - by rewrite Hs.
Qed.

Lemma getPointOnPath_fallback_witness :
  (let d := rem sample_host (rem sample_host 37.5 (totalPathLength blank_state)
                             + totalPathLength blank_state)
                (totalPathLength blank_state) in
   (d =? d) = false) ∧
  getPointOnPath sample_host blank_state 37.5
  = {| pt_x := 0; pt_y := 0; pt_angle := 0 |}.
Proof.
  split; [reflexivity|].
  apply (getPointOnPath_fallback sample_host blank_state 37.5).
  left. reflexivity.
Defined.

End BorderFacts.
